(** * Dominant wavelength and purity ([colour.colorimetry.dominant])

    A shallow embedding of [closest_spectral_locus_wavelength],
    [dominant_wavelength], [complementary_wavelength], [excitation_purity]
    and [colorimetric_purity], together with the coordinate transformations
    exercised by [tests_transformations.py].

    Numbers are binary64 values ([PrimFloat.float]), as in the NumPy arrays of
    the source: arithmetic rounds, divisions by zero give infinities or NaN and
    every comparison with a NaN is false.  The coordinate transformations
    are stated over binary64 and, where they are read as algebra, over the
    real numbers.  An array whose last axis has size
    two is the list of its points in row-major order; a single point is the
    batch of one element.  The reshapes that end each function restore the
    leading shape of the stimulus and succeed exactly when the number of rows
    they receive is the number of points of the stimulus.  The achromatic
    stimulus [xy_n] is one point, which [np.resize] repeats for every point
    of the stimulus. *)

From Stdlib Require Import Floats ZArith List Bool Lia Reals Lra.
Import ListNotations.

(** ** Data model *)

(** A row of an array of shape [(..., 2)]. *)
Definition point : Type := (float * float)%type.

(** A row of an array of shape [(..., 4)]: the two end points of a segment. *)
Definition segment : Type := (point * point)%type.

(** A row of [cmfs.values]. *)
Definition tristimulus : Type := (float * float * float)%type.

(** The fields of the result of [intersect_line_segments] that the module
    reads: the intersection point, NaN where the segments do not cross, and
    the flag telling whether they cross. *)
Module Intersection.
Record t : Type := { xy : point; intersect : bool }.
End Intersection.

(** The colour matching functions, as far as the module reads them. *)
Record XYZ_ColourMatchingFunctions : Type :=
  { values : list tristimulus; wavelengths : list float }.

(** ** Exceptions *)

Inductive exception : Type :=
| ValueError_no_intersection (xy : list point) (xy_n : point)
| ValueError_reshape (size shape : nat)
| IndexError.

Inductive result (A : Type) : Type :=
| Ok (a : A)
| Raise (e : exception).

Arguments Ok {A} a.
Arguments Raise {A} e.

Definition bind {A B : Type} (r : result A) (k : A -> result B) : result B :=
  match r with
  | Ok a => k a
  | Raise e => Raise e
  end.

Declare Scope result_scope.
Delimit Scope result_scope with result.
Notation "x <- r ;; k" := (bind r (fun x => k))
  (at level 61, r at next level, right associativity) : result_scope.
Notation "' p <- r ;; k" := (bind r (fun p => k))
  (at level 61, p pattern, r at next level, right associativity) : result_scope.

(** The exception a computation ends with, if any. *)
Definition raised {A : Type} (r : result A) : option exception :=
  match r with Ok _ => None | Raise e => Some e end.

Fixpoint mapM {A B : Type} (f : A -> result B) (l : list A) : result (list B) :=
  match l with
  | [] => Ok []
  | a :: l' =>
      match f a with
      | Ok b => match mapM f l' with
                | Ok bs => Ok (b :: bs)
                | Raise e => Raise e
                end
      | Raise e => Raise e
      end
  end.

(** ** NumPy and SciPy operations used by the module *)

Module np.

(** [np.isnan(a).any(axis=-1)] on one row. *)
Definition isnan_any (p : point) : bool :=
  (is_nan (fst p) || is_nan (snd p))%bool.

(** [np.roll(a, 1, axis=0)]: the last row comes first. *)
Definition roll {A : Type} (a : list A) : list A :=
  match rev a with
  | [] => []
  | z :: r => z :: rev r
  end.

(** [np.argmin] over a row [x :: l] of doubles: the index of the first
    minimum, or of the first NaN when there is one. *)
Fixpoint argmin_loop (mp : float) (min_ind i : nat) (l : list float) : nat :=
  match l with
  | [] => min_ind
  | x :: l' =>
      if (mp <=? x)%float then argmin_loop mp min_ind (S i) l'
      else if is_nan x then i
      else argmin_loop x i (S i) l'
  end.

Definition argmin (x : float) (l : list float) : nat :=
  if is_nan x then 0 else argmin_loop x 0 1 l.

(** [np.where(c, a, b)] on arrays of one length. *)
Fixpoint where_ {A : Type} (c : list bool) (a b : list A) : list A :=
  match c, a, b with
  | c0 :: c', a0 :: a', b0 :: b' => (if c0 then a0 else b0) :: where_ c' a' b'
  | _, _, _ => []
  end.

(** [a[i]] with an array [i] of indices. *)
Definition take {A : Type} (a : list A) (i : list nat) : result (list A) :=
  mapM (fun k => match nth_error a k with
                 | Some v => Ok v
                 | None => Raise IndexError
                 end) i.

(** [np.reshape(a, shape)] where [shape] holds [n] rows. *)
Definition reshape {A : Type} (a : list A) (n : nat) : result (list A) :=
  if Nat.eqb (length a) n then Ok a
  else Raise (ValueError_reshape (length a) n).

End np.

(** One entry of [scipy.spatial.distance.cdist(XA, XB)] with the Euclidean
    metric: the sum of the squared differences, accumulated from [0.0]. *)
Definition cdist (u v : point) : float :=
  let d0 := (fst u - fst v)%float in
  let d1 := (snd u - snd v)%float in
  PrimFloat.sqrt (0 + d0 * d0 + d1 * d1)%float.

(** ** The collaborators

    [dominant.py] imports [euclidean_distance], [extend_line_segment] and
    [intersect_line_segments] from [colour.algebra] and [XYZ_to_xy] from
    [colour.models]; their bodies are not part of the sources at hand, so the
    module is embedded over any implementation of them. *)

Class Collaborators : Type :=
  { euclidean_distance : point -> point -> float;
    extend_line_segment : point -> point -> point;
    intersect_line_segments : segment -> segment -> Intersection.t;
    XYZ_to_xy : tristimulus -> point }.

(** ** [dominant.py] *)

Section Dominant.

Context {collaborators : Collaborators}.

Local Open Scope result_scope.

(** [extend_line_segment(xy, xy_n) if reverse else
    extend_line_segment(xy_n, xy)], row by row. *)
Definition extended (xy_n : point) (reverse : bool) (p : point) : point :=
  if reverse then extend_line_segment p xy_n else extend_line_segment xy_n p.

(** [np.hstack((xy_s, np.roll(xy_s, 1, axis=0)))]. *)
Definition edges (xy_s : list point) : list segment :=
  combine xy_s (np.roll xy_s).

(** The rows of [intersect_line_segments(l_1, l_2).xy] that belong to one
    row of [l_1], kept by [~np.isnan(xy_wl).any(axis=-1)]. *)
Definition crossings (xy_n e : point) (l_2 : list segment) : list point :=
  filter (fun p => negb (np.isnan_any p))
         (map (fun s => Intersection.xy
                           (intersect_line_segments (xy_n, e) s)) l_2).

(** [intersect_line_segments(l_1, l_2).xy] filtered, for all the rows of
    [l_1], in row-major order. *)
Definition intersections (xy_n : point) (xy_e : list point)
           (xy_s : list point) : list point :=
  concat (map (fun e => crossings xy_n e (edges xy_s)) xy_e).

(** One row of [np.argmin(cdist(xy_wl, xy_s), axis=-1)], the locus being
    [s0 :: s]. *)
Definition nearest (s0 : point) (s : list point) (p : point) : nat :=
  np.argmin (cdist p s0) (map (cdist p) s).

Definition closest_spectral_locus_wavelength
           (xy : list point) (xy_n : point) (xy_s : list point)
           (reverse : bool) : result (list nat * list point) :=
  let xy_e := map (extended xy_n reverse) xy in
  match xy_s with
  | [] => Raise IndexError
  | s0 :: s =>
      (* Closing horse-shoe shape to handle line of purples intersections. *)
      let xy_s := xy_s ++ [s0] in
      let xy_wl := intersections xy_n xy_e xy_s in
      if Nat.eqb (length xy_wl) 0
      then Raise (ValueError_no_intersection xy xy_n)
      else
        let i_wl := map (nearest s0 (s ++ [s0])) xy_wl in
        i_wl <- np.reshape i_wl (length xy) ;;
        xy_wl <- np.reshape xy_wl (length xy) ;;
        Ok (i_wl, xy_wl)
  end.

(** [np.hstack((xy_s[0], xy_s[-1]))]: the segment from the first to the
    last sample of the locus. *)
Definition purple_line (xy_s : list point) : result segment :=
  match xy_s with
  | [] => Raise IndexError
  | s0 :: _ => Ok (s0, last xy_s s0)
  end.

Definition dominant_wavelength
           (xy : list point) (xy_n : point)
           (cmfs : XYZ_ColourMatchingFunctions) (reverse : bool)
  : result (list float * list point * list point) :=
  (* The flags [intersect] have one entry per point, as [wl] has, and
     [np.squeeze] leaves the rows as they are. *)
  let xy_s := map XYZ_to_xy (values cmfs) in
  '(i_wl, xy_wl) <- closest_spectral_locus_wavelength xy xy_n xy_s reverse ;;
  let xy_cwl := xy_wl in
  wl <- np.take (wavelengths cmfs) i_wl ;;
  let xy_e := map (extended xy_n reverse) xy in
  purple <- purple_line xy_s ;;
  let intersect :=
    map (fun e => Intersection.intersect
                    (intersect_line_segments (xy_n, e) purple)) xy_e in
  '(i_wl_r, xy_cwl_r) <-
    closest_spectral_locus_wavelength xy xy_n xy_s (negb reverse) ;;
  wl_r <- np.take (wavelengths cmfs) i_wl_r ;;
  let wl_r := map PrimFloat.opp wl_r in
  let wl := np.where_ intersect wl_r wl in
  let xy_cwl := np.where_ intersect xy_cwl_r xy_cwl in
  Ok (wl, xy_wl, xy_cwl).

Definition complementary_wavelength
           (xy : list point) (xy_n : point)
           (cmfs : XYZ_ColourMatchingFunctions)
  : result (list float * list point * list point) :=
  dominant_wavelength xy xy_n cmfs true.

Definition excitation_purity
           (xy : list point) (xy_n : point)
           (cmfs : XYZ_ColourMatchingFunctions) : result (list float) :=
  '(wl, xy_wl, xy_cwl) <- dominant_wavelength xy xy_n cmfs false ;;
  let P_e :=
    map (fun '(p, q) =>
           (euclidean_distance xy_n p / euclidean_distance xy_n q)%float)
        (combine xy xy_wl) in
  Ok P_e.

Definition colorimetric_purity
           (xy : list point) (xy_n : point)
           (cmfs : XYZ_ColourMatchingFunctions) : result (list float) :=
  '(wl, xy_wl, xy_cwl) <- dominant_wavelength xy xy_n cmfs false ;;
  P_e <- excitation_purity xy xy_n cmfs ;;
  let P_c :=
    map (fun '(pe, q, p) => (pe * snd q / snd p)%float)
        (combine (combine P_e xy_wl) xy) in
  Ok P_c.

End Dominant.

(** ** An implementation of the collaborators *)

Module Geometry.

Local Open Scope float_scope.

(** Modelled from the spec: [euclidean_distance], the Euclidean distance
    between two points, whose body is not part of the sources: the norm of
    the difference of the points. *)
Definition euclidean_distance (a b : point) : float :=
  let d0 := fst a - fst b in
  let d1 := snd a - snd b in
  PrimFloat.sqrt (d0 * d0 + d1 * d1).

(** Modelled from the spec: [extend_line_segment], whose body is not part
    of the sources: the end point one unit further than [b] along the
    direction from [a] to [b]. *)
Definition extend_line_segment (a b : point) : point :=
  let d := euclidean_distance a b in
  (fst b + (fst b - fst a) / d * 1, snd b + (snd b - snd a) / d * 1).

(** Modelled from the spec: [intersect_line_segments] on one pair of
    segments, whose body is not part of the sources: the crossing point of
    the two segments, from the parameters [u_a] and [u_b] of the crossing
    along each of them, NaN where one of them leaves [0, 1]. *)
Definition intersect_line_segments (l_1 l_2 : segment) : Intersection.t :=
  let '((x_1, y_1), (x_2, y_2)) := l_1 in
  let '((x_3, y_3), (x_4, y_4)) := l_2 in
  let x_4_x_3 := x_4 - x_3 in
  let y_1_y_3 := y_1 - y_3 in
  let y_4_y_3 := y_4 - y_3 in
  let x_1_x_3 := x_1 - x_3 in
  let x_2_x_1 := x_2 - x_1 in
  let y_2_y_1 := y_2 - y_1 in
  let numerator_a := x_4_x_3 * y_1_y_3 - y_4_y_3 * x_1_x_3 in
  let numerator_b := x_2_x_1 * y_1_y_3 - y_2_y_1 * x_1_x_3 in
  let denominator := y_4_y_3 * x_2_x_1 - x_4_x_3 * y_2_y_1 in
  let u_a := numerator_a / denominator in
  let u_b := numerator_b / denominator in
  let crosses :=
    ((0 <=? u_a) && (u_a <=? 1) && (0 <=? u_b) && (u_b <=? 1))%bool in
  {| Intersection.xy :=
       if crosses
       then (x_1 + x_2_x_1 * u_a, y_1 + y_2_y_1 * u_a)
       else (nan, nan);
     Intersection.intersect := crosses |}.

(** Modelled from the spec: [XYZ_to_xy], the projection of tristimulus
    values on the chromaticity plane, whose body is not part of the
    sources. *)
Definition XYZ_to_xy (v : tristimulus) : point :=
  let '(X, Y, Z) := v in
  (X / (X + Y + Z), Y / (X + Y + Z)).

Definition collaborators : Collaborators :=
  Build_Collaborators
    euclidean_distance extend_line_segment intersect_line_segments XYZ_to_xy.

End Geometry.

(** ** A small observer

    Three samples on a triangle of the chromaticity plane, with the
    achromatic point inside it; every number below is a binary fraction, so
    that no operation on them rounds. *)

Module Triangle.

Local Open Scope float_scope.

Definition cmfs : XYZ_ColourMatchingFunctions :=
  {| values := [(0, 0, 1); (0.5, 0, 0.5); (0, 0.5, 0.5)];
     wavelengths := [400; 550; 700] |}.

(** [XYZ_to_xy(cmfs.values)]. *)
Definition xy_s : list point := [(0, 0); (0.5, 0); (0, 0.5)].

Definition xy_n : point := (0.125, 0.125).

(** A stimulus whose ray leaves the triangle through the side from the
    second to the third sample. *)
Definition green : point := (0.25, 0.125).

(** A stimulus whose ray leaves the triangle through the side from the
    first to the last sample, the line of purples. *)
Definition purple : point := (0.0625, 0.125).

(** A stimulus whose ray leaves the triangle through its first sample. *)
Definition corner : point := (0.0625, 0.0625).

(** A stimulus of ordinate zero, below the triangle of [cmfs_raised]. *)
Definition dark : point := (0.125, 0).

Definition cmfs_raised : XYZ_ColourMatchingFunctions :=
  {| values := [(0, 0.0625, 0.9375); (0.5, 0.0625, 0.4375); (0, 0.5, 0.5)];
     wavelengths := [400; 550; 700] |}.

(** An achromatic point outside the triangle, and two stimuli on the
    horizontal line through it: the ray through [away] misses the triangle
    and the ray through [across] crosses two of its sides. *)
Definition outside : point := (0.75, 0.125).
Definition away : point := (0.8125, 0.125).
Definition across : point := (0.5, 0.125).

End Triangle.

(** ** Another small observer

    Four samples on a square of the chromaticity plane, with the achromatic
    point at its centre; the segment from the first to the last sample is
    its left side. *)

Module Square.

Local Open Scope float_scope.

Definition cmfs : XYZ_ColourMatchingFunctions :=
  {| values := [(0, 0, 1); (0.5, 0, 0.5); (0.5, 0.5, 0); (0, 0.5, 0.5)];
     wavelengths := [400; 500; 600; 700] |}.

(** [XYZ_to_xy(cmfs.values)]. *)
Definition xy_s : list point := [(0, 0); (0.5, 0); (0.5, 0.5); (0, 0.5)].

Definition xy_n : point := (0.25, 0.25).

(** A stimulus whose ray leaves the square through its third sample, where
    two sides meet. *)
Definition corner : point := (0.375, 0.375).

(** A stimulus whose ray leaves the square through the side from the first
    to the last sample, the line of purples. *)
Definition purple : point := (0.125, 0.25).

End Square.

(** ** Coordinate transformations

    [colour.algebra.coordinates.transformations] is known here through its
    tests only.  The four transformations are written once, over the
    arithmetic they are computed in: binary64, as the NumPy arrays of the
    tests, where products and sums round and overflow, and the real numbers,
    where the formulas are read as algebra. *)

Module Coordinates.

(** The operations of [+], [*] and [np.sqrt] on the numbers of type [T]. *)
Class Arithmetic (T : Type) : Type :=
  { add : T -> T -> T;
    mul : T -> T -> T;
    sqrt : T -> T }.

(** [np.cos], [np.sin] and [np.arctan2] on the numbers of type [T]. *)
Class Library (T : Type) : Type :=
  { cos : T -> T;
    sin : T -> T;
    arctan2 : T -> T -> T }.

Section Transformations.

Context {T : Type} {arithmetic : Arithmetic T} {library : Library T}.

(** Modelled from the spec: [hypot(x, y)], the norm of [(x, y)], whose
    body is not part of the sources: the square root of the sum of the
    squares. *)
Definition hypot (x y : T) : T := sqrt (add (mul x x) (mul y y)).

(** Modelled from the spec: the Euclidean norm of [(x, y, z)], whose body
    is not part of the sources: the square root of the sum of the squares,
    added from the left. *)
Definition norm (x y z : T) : T :=
  sqrt (add (add (mul x x) (mul y y)) (mul z z)).

(** Modelled from the spec: [cartesian_to_spherical], whose body is not
    part of the sources: [r] is the Euclidean norm, [theta] the
    two-argument arctangent of [z] and [hypot(x, y)], [phi] the
    two-argument arctangent of [y] and [x]. *)
Definition cartesian_to_spherical (a : T * T * T) : T * T * T :=
  let '(x, y, z) := a in
  (norm x y z, arctan2 z (hypot x y), arctan2 y x).

(** Modelled from the spec: [spherical_to_cartesian], whose body is not
    part of the sources: [x = r cos(theta) cos(phi)],
    [y = r cos(theta) sin(phi)], [z = r sin(theta)]. *)
Definition spherical_to_cartesian (a : T * T * T) : T * T * T :=
  let '(r, theta, phi) := a in
  (mul (mul r (cos theta)) (cos phi),
   mul (mul r (cos theta)) (sin phi),
   mul r (sin theta)).

(** Modelled from the spec: [cartesian_to_cylindrical], whose body is not
    part of the sources; the coordinate passed through comes first. *)
Definition cartesian_to_cylindrical (a : T * T * T) : T * T * T :=
  let '(x, y, z) := a in
  (z, arctan2 y x, hypot x y).

(** Modelled from the spec: [cylindrical_to_cartesian], whose body is not
    part of the sources: [x = rho cos(theta)], [y = rho sin(theta)], [z]
    passed through. *)
Definition cylindrical_to_cartesian (a : T * T * T) : T * T * T :=
  let '(z, theta, rho) := a in
  (mul rho (cos theta), mul rho (sin theta), z).

End Transformations.

(** Binary64: the sum, the product and the square root are the correctly
    rounded operations of IEEE 754.  The standard does not fix the values
    of the cosine, of the sine and of the arctangent, which come from the C
    library: over binary64 the transformations are stated for every
    [Library float]. *)
#[global] Instance binary64 : Arithmetic float :=
  {| add := PrimFloat.add; mul := PrimFloat.mul; sqrt := PrimFloat.sqrt |}.

(** The real numbers. *)
#[global] Instance real : Arithmetic R :=
  {| add := Rplus; mul := Rmult; sqrt := R_sqrt.sqrt |}.

(** The two-argument arctangent of the real numbers, the angle of the point
    [(x, y)] in the interval from [-PI] to [PI]. *)
Definition real_arctan2 (y x : R) : R :=
  match total_order_T x 0 with
  | inleft (left _) =>
      if Rle_dec 0 y then (atan (y / x) + PI)%R else (atan (y / x) - PI)%R
  | inleft (right _) =>
      match total_order_T y 0 with
      | inleft (left _) => (- (PI / 2))%R
      | inleft (right _) => 0%R
      | inright _ => (PI / 2)%R
      end
  | inright _ => atan (y / x)
  end.

#[global] Instance real_library : Library R :=
  {| cos := Rtrigo_def.cos; sin := Rtrigo_def.sin; arctan2 := real_arctan2 |}.

(** The tolerance [1e-7] of the round trips. *)
Definition tolerance : float := (1 / 10000000)%float.

(** Modelled from the spec: equality "within floating tolerance" of two
    binary64 vectors: the absolute value of the difference is below the
    tolerance on every coordinate, which is false where the difference is
    infinite or NaN. *)
Definition within_tolerance (tol : float) (a b : float * float * float)
  : bool :=
  let '(a1, a2, a3) := a in
  let '(b1, b2, b3) := b in
  ((abs (a1 - b1) <? tol) && (abs (a2 - b2) <? tol)
   && (abs (a3 - b3) <? tol))%float.

(** The binary64 number that [1e200] denotes; its square is above the
    largest binary64 number. *)
Definition huge : float := 0x1.4e718d7d7625ap+664%float.

End Coordinates.

(** * Properties *)

(** ** Binary64 facts *)

Module Binary64.

Local Open Scope float_scope.

Lemma is_nan_spec (x : float) : is_nan x = true <-> x = nan.
Proof.
  split.
  - intros E. apply Prim2SF_inj. unfold Prim2SF at 1. rewrite E. reflexivity.
  - intros ->. reflexivity.
Qed.

Lemma is_nan_SF (x : float) : is_nan x = false -> Prim2SF x <> S754_nan.
Proof.
  intros E N.
  assert (x = nan) by (apply Prim2SF_inj; rewrite N; reflexivity).
  subst. discriminate.
Qed.

Ltac std_compare :=
  repeat match goal with
    | |- context [IntDef.Z.compare ?x ?y] =>
        change (IntDef.Z.compare x y) with (Z.compare x y)
    | |- context [PosDef.Pos.compare_cont Eq ?x ?y] =>
        change (PosDef.Pos.compare_cont Eq x y) with (Pos.compare x y)
    end.

Ltac split_compare :=
  repeat (std_compare;
          match goal with
          | |- context [Z.compare ?x ?y] =>
              destruct (Z.compare_spec x y); simpl; subst
          | |- context [Pos.compare ?x ?y] =>
              destruct (Pos.compare_spec x y); simpl; subst
          end).

Lemma SFcompare_refl f : f <> S754_nan -> SFcompare f f = Some Eq.
Proof.
  destruct f as [s|s| |s m e]; simpl; try congruence; destruct s; auto;
    intros _; std_compare; rewrite Z.compare_refl, Pos.compare_refl;
    reflexivity.
Qed.

(** The order of the numbers that are not NaN is total and transitive:
    from [b < a] and [a <= c] follows [b <= c]. *)
Lemma SFleb_lt_trans a b c :
  b <> S754_nan -> SFleb a b = false -> SFleb a c = true -> SFleb b c = true.
Proof.
  unfold SFleb.
  destruct a as [sa|sa| |sa ma ea], b as [sb|sb| |sb mb eb],
        c as [sc|sc| |sc mc ec];
    simpl; try congruence; intros _;
    try destruct sa; try destruct sb; try destruct sc; simpl;
    try congruence; split_compare; try congruence; lia.
Qed.

Lemma SFleb_trans a b c :
  SFleb a b = true -> SFleb b c = true -> SFleb a c = true.
Proof.
  unfold SFleb.
  destruct a as [sa|sa| |sa ma ea], b as [sb|sb| |sb mb eb],
        c as [sc|sc| |sc mc ec];
    simpl; try congruence;
    try destruct sa; try destruct sb; try destruct sc; simpl;
    try congruence; split_compare; try congruence; lia.
Qed.

Lemma leb_trans (a b c : float) :
  (a <=? b) = true -> (b <=? c) = true -> (a <=? c) = true.
Proof. rewrite !leb_spec. apply SFleb_trans. Qed.

Lemma leb_refl (x : float) : is_nan x = false -> (x <=? x) = true.
Proof.
  intros E. rewrite leb_spec. unfold SFleb.
  rewrite SFcompare_refl; auto using is_nan_SF.
Qed.

Lemma leb_lt_trans (a b c : float) :
  is_nan b = false ->
  (a <=? b) = false -> (a <=? c) = true -> (b <=? c) = true.
Proof.
  rewrite !leb_spec. intros E. apply SFleb_lt_trans. now apply is_nan_SF.
Qed.

Lemma ltb_opp_pos (w : float) : (0 <? w) = true -> (- w <? 0) = true.
Proof.
  rewrite !ltb_spec, opp_spec. change (Prim2SF 0) with (S754_zero false).
  destruct (Prim2SF w) as [s|s| |s m e]; simpl; try discriminate;
    destruct s; simpl; auto.
Qed.

Lemma ltb_pos_not_neg (w : float) : (0 <? w) = true -> (w <? 0) = false.
Proof.
  rewrite !ltb_spec. change (Prim2SF 0) with (S754_zero false).
  destruct (Prim2SF w) as [s|s| |s m e]; simpl; try discriminate;
    destruct s; simpl; auto.
Qed.

(** An operation with a NaN operand gives NaN. *)
Ltac nan_operand :=
  intros; apply Prim2SF_inj;
  rewrite ?add_spec, ?sub_spec, ?mul_spec, ?div_spec;
  change (Prim2SF nan) with S754_nan;
  match goal with |- context [Prim2SF ?x] => destruct (Prim2SF x) end;
  reflexivity.

Lemma add_nan_r x : x + nan = nan.
Proof. nan_operand. Qed.

Lemma sub_nan_l x : nan - x = nan.
Proof. nan_operand. Qed.

Lemma sub_nan_r x : x - nan = nan.
Proof. nan_operand. Qed.

Lemma mul_nan_l x : nan * x = nan.
Proof. nan_operand. Qed.

Lemma mul_nan_r x : x * nan = nan.
Proof. nan_operand. Qed.

Lemma div_nan_r x : x / nan = nan.
Proof. nan_operand. Qed.

Lemma leb_nan_r x : (x <=? nan) = false.
Proof.
  rewrite leb_spec. change (Prim2SF nan) with S754_nan.
  destruct (Prim2SF x); reflexivity.
Qed.

(** The difference of a number with itself is zero, or NaN when the
    number is infinite or NaN. *)
Lemma sub_diag (x : float) : x - x = 0 \/ x - x = nan.
Proof.
  assert (H : Prim2SF (x - x) = S754_zero false \/
              Prim2SF (x - x) = S754_nan).
  { rewrite sub_spec. destruct (Prim2SF x) as [s|s| |s m e]; simpl.
    - left. destruct s; reflexivity.
    - right. destruct s; reflexivity.
    - right. reflexivity.
    - left. unfold SF64sub, SFsub.
      match goal with
      | |- context [IntDef.Z.sub ?a ?a] =>
          change (IntDef.Z.sub a a) with (Z.sub a a); rewrite Z.sub_diag
      end.
      reflexivity. }
  destruct H as [H|H]; [left|right]; apply Prim2SF_inj; rewrite H;
    reflexivity.
Qed.

(** A division by a zero of either sign gives an infinity or NaN. *)
Lemma div_zero (x y : float) :
  (y =? 0) = true ->
  x / y = infinity \/ x / y = neg_infinity \/ x / y = nan.
Proof.
  rewrite FloatAxioms.eqb_spec. change (Prim2SF 0) with (S754_zero false).
  intros Hy.
  assert (H : Prim2SF (x / y) = S754_infinity false \/
              Prim2SF (x / y) = S754_infinity true \/
              Prim2SF (x / y) = S754_nan).
  { rewrite div_spec.
    destruct (Prim2SF y) as [s|s| |s m e];
      try (destruct s; discriminate); try discriminate.
    destruct (Prim2SF x) as [sx|sx| |sx mx ex]; cbn; auto;
      destruct (xorb sx s); auto. }
  destruct H as [H|[H|H]]; [left|right; left|right; right];
    apply Prim2SF_inj; rewrite H; reflexivity.
Qed.

(** A number is finite when it is neither an infinity nor NaN. *)
Lemma is_finite_SF (x : float) :
  is_finite x = match Prim2SF x with
                | S754_infinity _ | S754_nan => false
                | _ => true
                end.
Proof.
  unfold is_finite, is_nan, is_infinity.
  rewrite !FloatAxioms.eqb_spec, abs_spec.
  change (Prim2SF infinity) with (S754_infinity false).
  destruct (Prim2SF x) as [s|s| |s m e] eqn:E;
    try (destruct s; reflexivity); try reflexivity.
  unfold SFeqb. rewrite SFcompare_refl by discriminate.
  destruct s; reflexivity.
Qed.

(** The product of an infinity or of NaN with any number is an infinity or
    NaN. *)
Lemma mul_not_finite (r c : float) :
  is_finite r = false -> is_finite (r * c) = false.
Proof.
  rewrite !is_finite_SF, mul_spec.
  destruct (Prim2SF r) as [s|s| |s m e]; try discriminate; intros _;
    destruct (Prim2SF c) as [s'|s'| |s' m' e']; reflexivity.
Qed.

(** An infinity or NaN is within no tolerance of any number. *)
Lemma far_not_finite (tol a b : float) :
  is_finite a = false -> (abs (a - b) <? tol) = false.
Proof.
  rewrite is_finite_SF, ltb_spec, abs_spec, sub_spec.
  destruct (Prim2SF a) as [s|s| |s m e]; try discriminate; intros _.
  - destruct (Prim2SF b) as [s'|s'| |s' m' e']; destruct s;
      try destruct s'; simpl;
      destruct (Prim2SF tol) as [st|st| |st mt et]; try destruct st;
      reflexivity.
  - destruct (Prim2SF b); reflexivity.
Qed.

End Binary64.

(** ** NumPy facts *)

Section Arrays.

Context {A B : Type}.

Lemma nth_error_same_length (l : list A) (l' : list B) k a :
  length l' = length l -> nth_error l k = Some a ->
  exists b, nth_error l' k = Some b.
Proof.
  intros E Hk.
  assert (k < length l') as Hlt
      by (rewrite E; apply nth_error_Some; congruence).
  apply nth_error_Some in Hlt.
  destruct (nth_error l' k) as [b|]; [now exists b | congruence].
Qed.

Lemma combine_nth_error (l : list A) (l' : list B) k a b :
  nth_error l k = Some a -> nth_error l' k = Some b ->
  nth_error (combine l l') k = Some (a, b).
Proof.
  revert l' k. induction l as [|x l IH]; intros [|y l'] [|k]; simpl;
    try discriminate.
  - now intros [= ->] [= ->].
  - apply IH.
Qed.

Lemma mapM_length (f : A -> result B) l v :
  mapM f l = Ok v -> length v = length l.
Proof.
  revert v. induction l as [|a l IH]; simpl; intros v Hv.
  - now inversion Hv.
  - destruct (f a); [|discriminate].
    destruct (mapM f l); [|discriminate].
    inversion Hv; subst. simpl. now rewrite (IH _ eq_refl).
Qed.

Lemma mapM_nth (f : A -> result B) l v k a :
  mapM f l = Ok v -> nth_error l k = Some a ->
  exists b, f a = Ok b /\ nth_error v k = Some b.
Proof.
  revert v k. induction l as [|x l IH]; simpl; intros v k Hv Hk.
  - now destruct k.
  - destruct (f x) as [b|] eqn:Hx; [|discriminate].
    destruct (mapM f l) as [bs|]; [|discriminate].
    inversion Hv; subst. destruct k as [|k]; simpl in *.
    + inversion Hk; subst. now exists b.
    + now apply IH.
Qed.

Lemma mapM_Ok (f : A -> result B) l :
  Forall (fun a => exists b, f a = Ok b) l -> exists v, mapM f l = Ok v.
Proof.
  induction 1 as [|a l [b Hb] _ [v Hv]]; simpl.
  - now exists [].
  - rewrite Hb, Hv. now exists (b :: v).
Qed.

Lemma where_nth (c : list bool) (a b : list A) k ck ak bk :
  nth_error c k = Some ck -> nth_error a k = Some ak ->
  nth_error b k = Some bk ->
  nth_error (np.where_ c a b) k = Some (if ck then ak else bk).
Proof.
  revert a b k. induction c as [|c0 c IH]; intros [|a0 a] [|b0 b] [|k];
    simpl; try discriminate.
  - now intros [= ->] [= ->] [= ->].
  - apply IH.
Qed.

Lemma roll_app (l : list A) (a : A) : np.roll (l ++ [a]) = a :: l.
Proof.
  unfold np.roll. rewrite rev_app_distr. simpl. now rewrite rev_involutive.
Qed.

Lemma last_cons_default (l : list A) (a b : A) :
  last (a :: l) b = last l a.
Proof.
  revert a b. induction l as [|x l IH]; intros a b; [reflexivity|].
  change (last (a :: x :: l) b) with (last (x :: l) b).
  rewrite (IH x b), (IH x a). reflexivity.
Qed.

(** The last pair of [hstack((l ++ [a], roll(l ++ [a])))] joins [a] to the
    last element of [l]. *)
Lemma In_combine_last (l : list A) (a b : A) :
  In (a, last l b) (combine (l ++ [a]) (b :: l)).
Proof.
  revert b. induction l as [|x l IH]; intros b; simpl app; simpl combine.
  - now left.
  - right. rewrite last_cons_default. apply IH.
Qed.

End Arrays.

Section Argmin.

Local Open Scope float_scope.

(** When the running minimum is not above [r], the scan of a row that ends
    with [r] does not stop on its last index. *)
Lemma argmin_loop_closed (r : float) (l : list float) :
  forall mp min_ind i,
    (min_ind < i)%nat -> (mp <=? r) = true ->
    (np.argmin_loop mp min_ind i (l ++ [r]) < i + length l)%nat.
Proof.
  induction l as [|x l IH]; intros mp min_ind i Hi Hr; simpl.
  - rewrite Hr. lia.
  - destruct (mp <=? x) eqn:Hx.
    + specialize (IH mp min_ind (S i) (Nat.lt_lt_succ_r _ _ Hi) Hr). lia.
    + destruct (is_nan x) eqn:Hn; [lia|].
      specialize (IH x i (S i) (Nat.lt_succ_diag_r i)
                     (Binary64.leb_lt_trans mp x r Hn Hx Hr)).
      lia.
Qed.

(** [np.argmin] over a row whose last entry repeats the first one returns
    an index of the row without its last entry. *)
Lemma argmin_closed (x : float) (l : list float) :
  (np.argmin x (l ++ [x]) < S (length l))%nat.
Proof.
  unfold np.argmin. destruct (is_nan x) eqn:Hn; [lia|].
  apply (argmin_loop_closed x l x 0%nat 1%nat);
    [lia | now apply Binary64.leb_refl].
Qed.

End Argmin.

(** ** [closest_spectral_locus_wavelength] *)

Section Closest.

Context {collaborators : Collaborators}.

(** What a call that returns has computed. *)
Lemma closest_Ok_inv xy xy_n xy_s reverse i_wl xy_wl :
  closest_spectral_locus_wavelength xy xy_n xy_s reverse = Ok (i_wl, xy_wl) ->
  exists s0 s,
    xy_s = s0 :: s /\
    xy_wl = intersections xy_n (map (extended xy_n reverse) xy)
                          (xy_s ++ [s0]) /\
    length xy_wl = length xy /\
    i_wl = map (nearest s0 (s ++ [s0])) xy_wl.
Proof.
  unfold closest_spectral_locus_wavelength.
  destruct xy_s as [|s0 s]; [discriminate|].
  set (X := intersections _ _ _).
  destruct (Nat.eqb (length X) 0); [discriminate|].
  unfold np.reshape. rewrite length_map.
  destruct (Nat.eqb (length X) (length xy)) eqn:E; cbn [bind];
    [|discriminate].
  intros [= <- <-]. apply Nat.eqb_eq in E.
  exists s0, s. repeat split; auto.
Qed.

(** The three outcomes of a call on a locus that has a sample. *)
Lemma closest_cases xy xy_n s0 s reverse :
  let xy_wl := intersections xy_n (map (extended xy_n reverse) xy)
                             ((s0 :: s) ++ [s0]) in
  closest_spectral_locus_wavelength xy xy_n (s0 :: s) reverse =
    if Nat.eqb (length xy_wl) 0
    then Raise (ValueError_no_intersection xy xy_n)
    else if Nat.eqb (length xy_wl) (length xy)
         then Ok (map (nearest s0 (s ++ [s0])) xy_wl, xy_wl)
         else Raise (ValueError_reshape (length xy_wl) (length xy)).
Proof.
  intros xy_wl. unfold closest_spectral_locus_wavelength. fold xy_wl.
  destruct (Nat.eqb (length xy_wl) 0); [reflexivity|].
  unfold np.reshape. rewrite length_map.
  destruct (Nat.eqb (length xy_wl) (length xy)); reflexivity.
Qed.

Lemma nearest_closed s0 s p :
  nearest s0 (s ++ [s0]) p < length (s0 :: s).
Proof.
  unfold nearest. rewrite map_app. cbn [map length].
  rewrite <- (length_map (cdist p) s). apply argmin_closed.
Qed.

Lemma take_Ok {A : Type} (a : list A) (i : list nat) :
  Forall (fun k => k < length a) i ->
  exists v, np.take a i = Ok v /\ length v = length i.
Proof.
  intros F. unfold np.take.
  destruct (mapM_Ok (fun k => match nth_error a k with
                              | Some v => Ok v
                              | None => Raise IndexError
                              end) i) as [v Hv].
  - eapply Forall_impl; [|exact F]. intros k Hk. cbn beta in *.
    apply nth_error_Some in Hk.
    destruct (nth_error a k) as [x|]; [now exists x | congruence].
  - exists v. split; [exact Hv | exact (mapM_length _ _ _ Hv)].
Qed.

Lemma take_nth {A : Type} (a : list A) (i : list nat) v k j :
  np.take a i = Ok v -> nth_error i k = Some j ->
  exists x, nth_error a j = Some x /\ nth_error v k = Some x.
Proof.
  intros Hv Hk. destruct (mapM_nth _ _ _ _ _ Hv Hk) as [x [Hx Hvk]].
  exists x. destruct (nth_error a j); [|discriminate].
  inversion Hx; subst. auto.
Qed.

(** C6: on every input on which [closest_spectral_locus_wavelength]
    returns, each returned index is an index of the spectral locus it was
    given, although the search runs over the locus closed by a copy of its
    first sample, and hence an index of every sequence of wavelengths of
    the same length; the indices and the coordinates returned have one row
    per point of the stimulus. *)
Theorem closest_index_valid xy xy_n xy_s reverse i_wl xy_wl :
  closest_spectral_locus_wavelength xy xy_n xy_s reverse = Ok (i_wl, xy_wl) ->
  Forall (fun i => i < length xy_s) i_wl /\
  length i_wl = length xy /\
  length xy_wl = length xy /\
  forall w : list float,
    length w = length xy_s ->
    exists wl, np.take w i_wl = Ok wl /\ length wl = length xy.
Proof.
  intros Hc. destruct (closest_Ok_inv _ _ _ _ _ _ Hc) as (s0 & s & -> & _ & L & ->).
  assert (F : Forall (fun i => i < length (s0 :: s))
                     (map (nearest s0 (s ++ [s0])) xy_wl)).
  { apply Forall_forall. intros i Hi. apply in_map_iff in Hi.
    destruct Hi as [p [<- _]]. apply nearest_closed. }
  repeat split; auto.
  - now rewrite length_map.
  - intros w Hw. rewrite <- Hw in F.
    destruct (take_Ok w _ F) as [wl [Hwl Hl]].
    exists wl. split; [exact Hwl|]. now rewrite Hl, length_map.
Qed.

End Closest.

(** ** [dominant_wavelength] *)

Section Wavelength.

Context {collaborators : Collaborators}.

Lemma closest_lengths xy xy_n xy_s reverse i_wl xy_wl :
  closest_spectral_locus_wavelength xy xy_n xy_s reverse = Ok (i_wl, xy_wl) ->
  length i_wl = length xy /\ length xy_wl = length xy.
Proof.
  intros Hc.
  destruct (closest_Ok_inv _ _ _ _ _ _ Hc) as (s0 & s & _ & _ & L & ->).
  now rewrite length_map.
Qed.

(** What a call of [dominant_wavelength] that returns has computed. *)
Lemma dominant_wavelength_Ok_inv xy xy_n cmfs reverse wl xy_wl xy_cwl :
  dominant_wavelength xy xy_n cmfs reverse = Ok (wl, xy_wl, xy_cwl) ->
  exists i_wl wl_f purple i_wl_r xy_cwl_r wl_r,
    closest_spectral_locus_wavelength
      xy xy_n (map XYZ_to_xy (values cmfs)) reverse = Ok (i_wl, xy_wl) /\
    np.take (wavelengths cmfs) i_wl = Ok wl_f /\
    purple_line (map XYZ_to_xy (values cmfs)) = Ok purple /\
    closest_spectral_locus_wavelength
      xy xy_n (map XYZ_to_xy (values cmfs)) (negb reverse)
    = Ok (i_wl_r, xy_cwl_r) /\
    np.take (wavelengths cmfs) i_wl_r = Ok wl_r /\
    wl = np.where_
           (map (fun e => Intersection.intersect
                            (intersect_line_segments (xy_n, e) purple))
                (map (extended xy_n reverse) xy))
           (map PrimFloat.opp wl_r) wl_f /\
    xy_cwl = np.where_
               (map (fun e => Intersection.intersect
                                (intersect_line_segments (xy_n, e) purple))
                    (map (extended xy_n reverse) xy))
               xy_cwl_r xy_wl.
Proof.
  unfold dominant_wavelength.
  destruct (closest_spectral_locus_wavelength _ _ _ reverse)
    as [[i_wl xy_wl0]|] eqn:Hc; cbn [bind]; [|discriminate].
  destruct (np.take _ i_wl) as [wl_f|] eqn:Ht; cbn [bind]; [|discriminate].
  destruct (purple_line _) as [purple|] eqn:Hp; cbn [bind]; [|discriminate].
  destruct (closest_spectral_locus_wavelength _ _ _ (negb reverse))
    as [[i_wl_r xy_cwl_r]|] eqn:Hcr; cbn [bind]; [|discriminate].
  destruct (np.take _ i_wl_r) as [wl_r|] eqn:Htr; cbn [bind];
    [|discriminate].
  intros [= <- <- <-].
  exists i_wl, wl_f, purple, i_wl_r, xy_cwl_r, wl_r. repeat split; auto.
Qed.

(** The rows of the result, stimulus by stimulus: the wavelength and the
    second coordinate are chosen by the flag of the line of purples between
    the values of the two directions. *)
Lemma dominant_wavelength_rows xy xy_n cmfs reverse wl xy_wl xy_cwl :
  dominant_wavelength xy xy_n cmfs reverse = Ok (wl, xy_wl, xy_cwl) ->
  exists purple i_wl wl_f i_wl_r xy_cwl_r wl_r,
    purple_line (map XYZ_to_xy (values cmfs)) = Ok purple /\
    closest_spectral_locus_wavelength
      xy xy_n (map XYZ_to_xy (values cmfs)) reverse = Ok (i_wl, xy_wl) /\
    np.take (wavelengths cmfs) i_wl = Ok wl_f /\
    closest_spectral_locus_wavelength
      xy xy_n (map XYZ_to_xy (values cmfs)) (negb reverse)
    = Ok (i_wl_r, xy_cwl_r) /\
    np.take (wavelengths cmfs) i_wl_r = Ok wl_r /\
    forall k p,
      nth_error xy k = Some p ->
      exists w_f w_r c1 c_r,
        nth_error wl_f k = Some w_f /\ In w_f (wavelengths cmfs) /\
        nth_error wl_r k = Some w_r /\ In w_r (wavelengths cmfs) /\
        nth_error xy_wl k = Some c1 /\
        nth_error xy_cwl_r k = Some c_r /\
        nth_error wl k
        = Some (if Intersection.intersect
                     (intersect_line_segments
                        (xy_n, extended xy_n reverse p) purple)
                then (- w_r)%float else w_f) /\
        nth_error xy_cwl k
        = Some (if Intersection.intersect
                     (intersect_line_segments
                        (xy_n, extended xy_n reverse p) purple)
                then c_r else c1).
Proof.
  intros Hd.
  destruct (dominant_wavelength_Ok_inv _ _ _ _ _ _ _ Hd)
    as (i_wl & wl_f & purple & i_wl_r & xy_cwl_r & wl_r
        & Hc & Ht & Hp & Hcr & Htr & -> & ->).
  exists purple, i_wl, wl_f, i_wl_r, xy_cwl_r, wl_r. repeat split; auto.
  intros k p Hk.
  destruct (closest_lengths _ _ _ _ _ _ Hc) as [Li Lx].
  destruct (closest_lengths _ _ _ _ _ _ Hcr) as [Lir Lxr].
  destruct (nth_error_same_length _ _ _ _ Lx Hk) as [c1 Hc1].
  destruct (nth_error_same_length _ _ _ _ Lxr Hk) as [c_r Hc_r].
  destruct (nth_error_same_length _ _ _ _ Li Hk) as [j Hj].
  destruct (nth_error_same_length _ _ _ _ Lir Hk) as [j_r Hj_r].
  destruct (take_nth _ _ _ _ _ Ht Hj) as [w_f [Hwf Hwfk]].
  destruct (take_nth _ _ _ _ _ Htr Hj_r) as [w_r [Hwr Hwrk]].
  set (hit := Intersection.intersect
                (intersect_line_segments
                   (xy_n, extended xy_n reverse p) purple)).
  assert (Hflag : nth_error
            (map (fun e => Intersection.intersect
                             (intersect_line_segments (xy_n, e) purple))
                 (map (extended xy_n reverse) xy)) k = Some hit).
  { rewrite map_map. exact (map_nth_error _ _ _ Hk). }
  assert (Hopp : nth_error (map PrimFloat.opp wl_r) k = Some (- w_r)%float)
    by exact (map_nth_error _ _ _ Hwrk).
  exists w_f, w_r, c1, c_r.
  repeat split; eauto using where_nth, nth_error_In.
Qed.

(** C1: when [dominant_wavelength] returns, on an observer whose
    wavelengths are positive, the wavelength returned for a stimulus is
    negative if and only if the ray from [xy_n] through the stimulus, in
    the direction asked for, intersects the segment from the first to the
    last sample of the locus; in that case it is the opposite of the
    wavelength found in the other direction and the second coordinate is
    the intersection found in the other direction, and otherwise the
    second coordinate is the first one. *)
Theorem dominant_wavelength_sign xy xy_n cmfs reverse wl xy_wl xy_cwl :
  Forall (fun w => (0 <? w)%float = true) (wavelengths cmfs) ->
  dominant_wavelength xy xy_n cmfs reverse = Ok (wl, xy_wl, xy_cwl) ->
  exists purple i_wl_r xy_cwl_r wl_r,
    purple_line (map XYZ_to_xy (values cmfs)) = Ok purple /\
    closest_spectral_locus_wavelength
      xy xy_n (map XYZ_to_xy (values cmfs)) (negb reverse)
    = Ok (i_wl_r, xy_cwl_r) /\
    np.take (wavelengths cmfs) i_wl_r = Ok wl_r /\
    forall k p,
      nth_error xy k = Some p ->
      exists w c1 c2 w_r c_r,
        nth_error wl k = Some w /\
        nth_error xy_wl k = Some c1 /\
        nth_error xy_cwl k = Some c2 /\
        nth_error wl_r k = Some w_r /\
        nth_error xy_cwl_r k = Some c_r /\
        (w <? 0)%float =
          Intersection.intersect
            (intersect_line_segments (xy_n, extended xy_n reverse p) purple) /\
        if Intersection.intersect
             (intersect_line_segments (xy_n, extended xy_n reverse p) purple)
        then w = (- w_r)%float /\ c2 = c_r
        else c2 = c1.
Proof.
  intros Hpos Hd. rewrite Forall_forall in Hpos.
  destruct (dominant_wavelength_rows _ _ _ _ _ _ _ Hd)
    as (purple & i_wl & wl_f & i_wl_r & xy_cwl_r & wl_r
        & Hp & _ & _ & Hcr & Htr & Hrows).
  exists purple, i_wl_r, xy_cwl_r, wl_r. repeat split; auto.
  intros k p Hk.
  destruct (Hrows k p Hk)
    as (w_f & w_r & c1 & c_r & _ & Hwf & Hwr & Hwr' & Hc1 & Hcr' & Hw & Hc2).
  destruct (Intersection.intersect _) eqn:Hit.
  - exists (- w_r)%float, c1, c_r, w_r, c_r. repeat split; auto.
    now apply Binary64.ltb_opp_pos, Hpos.
  - exists w_f, c1, c1, w_r, c_r. repeat split; auto.
    now apply Binary64.ltb_pos_not_neg, Hpos.
Qed.

(** C3: [complementary_wavelength] returns what [dominant_wavelength]
    returns with [reverse=True], on every input. *)
Theorem complementary_wavelength_is_reverse xy xy_n cmfs :
  complementary_wavelength xy xy_n cmfs
  = dominant_wavelength xy xy_n cmfs true.
Proof. reflexivity. Qed.

End Wavelength.

(** ** The purities *)

Section Purity.

Context {collaborators : Collaborators}.

Lemma excitation_purity_Ok xy xy_n cmfs wl xy_wl xy_cwl :
  dominant_wavelength xy xy_n cmfs false = Ok (wl, xy_wl, xy_cwl) ->
  excitation_purity xy xy_n cmfs
  = Ok (map (fun '(p, q) =>
               (euclidean_distance xy_n p / euclidean_distance xy_n q)%float)
            (combine xy xy_wl)).
Proof. intros Hd. unfold excitation_purity. now rewrite Hd. Qed.

Lemma dominant_wavelength_lengths xy xy_n cmfs reverse wl xy_wl xy_cwl :
  dominant_wavelength xy xy_n cmfs reverse = Ok (wl, xy_wl, xy_cwl) ->
  length xy_wl = length xy.
Proof.
  intros Hd.
  destruct (dominant_wavelength_Ok_inv _ _ _ _ _ _ _ Hd)
    as (i_wl & _ & _ & _ & _ & _ & Hc & _).
  now destruct (closest_lengths _ _ _ _ _ _ Hc).
Qed.

(** C4: where [dominant_wavelength] returns, [excitation_purity] returns,
    for each stimulus, the distance from [xy_n] to the stimulus divided by
    the distance from [xy_n] to the first intersection coordinate that
    [dominant_wavelength] returns for it. *)
Theorem excitation_purity_ratio xy xy_n cmfs wl xy_wl xy_cwl :
  dominant_wavelength xy xy_n cmfs false = Ok (wl, xy_wl, xy_cwl) ->
  exists P_e,
    excitation_purity xy xy_n cmfs = Ok P_e /\
    length P_e = length xy /\
    forall k p q,
      nth_error xy k = Some p -> nth_error xy_wl k = Some q ->
      nth_error P_e k
      = Some (euclidean_distance xy_n p / euclidean_distance xy_n q)%float.
Proof.
  intros Hd. rewrite (excitation_purity_Ok _ _ _ _ _ _ Hd).
  pose proof (dominant_wavelength_lengths _ _ _ _ _ _ _ Hd) as L.
  eexists. split; [reflexivity|]. split.
  - rewrite length_map, length_combine, L. apply Nat.min_id.
  - intros k p q Hp Hq.
    exact (map_nth_error _ _ _ (combine_nth_error _ _ _ _ _ Hp Hq)).
Qed.

(** C5: where [dominant_wavelength] returns, [colorimetric_purity]
    returns, for each stimulus, the excitation purity multiplied by the
    second component of the first intersection coordinate and divided by
    the second component of the stimulus. *)
Theorem colorimetric_purity_scaling xy xy_n cmfs wl xy_wl xy_cwl :
  dominant_wavelength xy xy_n cmfs false = Ok (wl, xy_wl, xy_cwl) ->
  exists P_e P_c,
    excitation_purity xy xy_n cmfs = Ok P_e /\
    colorimetric_purity xy xy_n cmfs = Ok P_c /\
    length P_c = length xy /\
    forall k p q e,
      nth_error xy k = Some p -> nth_error xy_wl k = Some q ->
      nth_error P_e k = Some e ->
      nth_error P_c k = Some (e * snd q / snd p)%float.
Proof.
  intros Hd. pose proof (excitation_purity_Ok _ _ _ _ _ _ Hd) as He.
  pose proof (dominant_wavelength_lengths _ _ _ _ _ _ _ Hd) as L.
  unfold colorimetric_purity. rewrite Hd. cbn [bind]. rewrite He.
  cbn [bind]. do 2 eexists. split; [reflexivity|]. split; [reflexivity|].
  split.
  - rewrite length_map, !length_combine, length_map, length_combine, L.
    rewrite !Nat.min_id. reflexivity.
  - intros k p q e Hp Hq Hk.
    exact (map_nth_error
             _ _ _ (combine_nth_error
                      _ _ _ _ _ (combine_nth_error _ _ _ _ _ Hk Hq) Hp)).
Qed.

(** C7, as amended: the purities have no error path of their own: they
    end with an exception exactly when [dominant_wavelength] does, with
    the same one, and where the second component of a stimulus is a zero
    the colorimetric purity returned for it is an infinity or NaN. *)
Theorem purity_error_paths xy xy_n cmfs :
  raised (excitation_purity xy xy_n cmfs)
  = raised (dominant_wavelength xy xy_n cmfs false) /\
  raised (colorimetric_purity xy xy_n cmfs)
  = raised (dominant_wavelength xy xy_n cmfs false) /\
  forall P_c k p,
    colorimetric_purity xy xy_n cmfs = Ok P_c ->
    nth_error xy k = Some p ->
    (snd p =? 0)%float = true ->
    exists v,
      nth_error P_c k = Some v /\
      (v = infinity \/ v = neg_infinity \/ v = nan).
Proof.
  destruct (dominant_wavelength xy xy_n cmfs false)
    as [[[wl xy_wl] xy_cwl]|e] eqn:Hd.
  - pose proof (excitation_purity_Ok _ _ _ _ _ _ Hd) as He.
    pose proof (dominant_wavelength_lengths _ _ _ _ _ _ _ Hd) as L.
    unfold colorimetric_purity. rewrite Hd, He. cbn [bind raised].
    repeat split.
    intros P_c k p [= <-] Hp Hz.
    destruct (nth_error_same_length _ _ _ _ L Hp) as [q Hq].
    assert (Le : length (map (fun '(p, q) =>
                   (euclidean_distance xy_n p
                    / euclidean_distance xy_n q)%float)
                   (combine xy xy_wl)) = length xy)
      by (rewrite length_map, length_combine, L; apply Nat.min_id).
    destruct (nth_error_same_length _ _ _ _ Le Hp) as [e He'].
    exists (e * snd q / snd p)%float. split.
    + exact (map_nth_error
               _ _ _ (combine_nth_error
                        _ _ _ _ _ (combine_nth_error _ _ _ _ _ He' Hq) Hp)).
    + now apply Binary64.div_zero.
  - unfold colorimetric_purity, excitation_purity. rewrite Hd.
    cbn [bind raised]. repeat split. discriminate.
Qed.

End Purity.

(** ** The error of [closest_spectral_locus_wavelength] *)

Section NoIntersection.

Local Open Scope float_scope.

(** A ray of length zero has no end point: the direction is the quotient
    of a zero, or of a NaN, by the length. *)
Lemma extend_line_segment_degenerate (a : point) :
  Geometry.extend_line_segment a a = (nan, nan).
Proof.
  destruct a as [x y].
  unfold Geometry.extend_line_segment, Geometry.euclidean_distance.
  cbn [fst snd].
  destruct (Binary64.sub_diag x) as [-> | ->],
           (Binary64.sub_diag y) as [-> | ->];
    match goal with
    | |- (x + ?c, y + ?d) = _ =>
        change c with nan; change d with nan
    end;
    now rewrite !Binary64.add_nan_r.
Qed.

(** No segment crosses a ray whose end point is NaN. *)
Lemma intersect_line_segments_nan (a : point) (l_2 : segment) :
  Geometry.intersect_line_segments (a, (nan, nan)) l_2
  = {| Intersection.xy := (nan, nan); Intersection.intersect := false |}.
Proof.
  destruct a as [x_1 y_1], l_2 as [[x_3 y_3] [x_4 y_4]].
  unfold Geometry.intersect_line_segments.
  rewrite !Binary64.sub_nan_l, !Binary64.mul_nan_l, !Binary64.mul_nan_r,
    !Binary64.sub_nan_l, !Binary64.div_nan_r, !Binary64.leb_nan_r.
  reflexivity.
Qed.

Lemma crossings_nan (xy_n : point) (l_2 : list segment) :
  @crossings Geometry.collaborators xy_n (nan, nan) l_2 = [].
Proof.
  unfold crossings. induction l_2 as [|s l IH]; [reflexivity|].
  cbn [map filter intersect_line_segments Geometry.collaborators].
  rewrite intersect_line_segments_nan. exact IH.
Qed.

Lemma intersections_degenerate xy xy_n xy_s reverse :
  Forall (eq xy_n) xy ->
  @intersections Geometry.collaborators xy_n
                 (map (@extended Geometry.collaborators xy_n reverse) xy)
                 xy_s = [].
Proof.
  unfold intersections.
  induction 1 as [|p xy <- _ IH]; [reflexivity|].
  cbn [map concat]. rewrite IH, app_nil_r.
  replace (@extended Geometry.collaborators xy_n reverse xy_n)
    with ((nan, nan) : point).
  - apply crossings_nan.
  - unfold extended. cbn [extend_line_segment Geometry.collaborators].
    rewrite extend_line_segment_degenerate. now destruct reverse.
Qed.

(** C2: on a locus that has a sample, [closest_spectral_locus_wavelength]
    raises its [ValueError], which carries [xy] and [xy_n], exactly when no
    intersection of the rays with the closed locus remains once the NaN
    ones are filtered out; and where every stimulus is [xy_n] itself the
    call raises it, so that nothing is returned. *)
Theorem closest_raises_no_intersection xy xy_n s0 s reverse :
  (forall collaborators : Collaborators,
      closest_spectral_locus_wavelength xy xy_n (s0 :: s) reverse
      = Raise (ValueError_no_intersection xy xy_n)
      <-> intersections xy_n (map (extended xy_n reverse) xy)
                        ((s0 :: s) ++ [s0]) = []) /\
  (Forall (eq xy_n) xy ->
   @closest_spectral_locus_wavelength
     Geometry.collaborators xy xy_n (s0 :: s) reverse
   = Raise (ValueError_no_intersection xy xy_n)).
Proof.
  split.
  - intros C. rewrite closest_cases.
    destruct (intersections _ _ _) as [|q l]; cbn [length Nat.eqb].
    + tauto.
    + split; [|discriminate].
      match goal with
      | |- context [if ?b then _ else _] => destruct b
      end; discriminate.
  - intros F. rewrite closest_cases, intersections_degenerate by exact F.
    reflexivity.
Qed.

End NoIntersection.

(** ** Batches *)

Section Batches.

Context {collaborators : Collaborators}.

(** A call on one stimulus returns exactly when one intersection remains. *)
Lemma closest_single p xy_n s0 s reverse i q :
  closest_spectral_locus_wavelength [p] xy_n (s0 :: s) reverse
  = Ok ([i], [q]) ->
  crossings xy_n (extended xy_n reverse p) (edges ((s0 :: s) ++ [s0])) = [q]
  /\ i = nearest s0 (s ++ [s0]) q.
Proof.
  intros Hc.
  destruct (closest_Ok_inv _ _ _ _ _ _ Hc) as (s0' & s' & [= <- <-] & Hx & _ & Hi).
  unfold intersections in Hx. cbn [map concat] in Hx.
  rewrite app_nil_r in Hx. split; [now symmetry|].
  now injection Hi.
Qed.

(** Where the call on each stimulus alone returns, the call on the batch
    returns the same index and the same coordinate for each of them. *)
Lemma closest_batch_elementwise xy xy_n xy_s reverse rs :
  xy <> [] ->
  Forall2 (fun p r =>
             closest_spectral_locus_wavelength [p] xy_n xy_s reverse
             = Ok ([fst r], [snd r])) xy rs ->
  closest_spectral_locus_wavelength xy xy_n xy_s reverse
  = Ok (map fst rs, map snd rs).
Proof.
  intros Hne F.
  destruct xy_s as [|s0 s].
  { destruct F; [congruence | discriminate]. }
  assert (H : intersections xy_n (map (extended xy_n reverse) xy)
                            ((s0 :: s) ++ [s0]) = map snd rs /\
              map (nearest s0 (s ++ [s0])) (map snd rs) = map fst rs /\
              length rs = length xy).
  { clear Hne. unfold intersections.
    induction F as [|p r xy rs Hp _ (IH1 & IH2 & IH3)];
      [repeat split|].
    destruct (closest_single _ _ _ _ _ _ _ Hp) as [Hq Hi].
    cbn [map concat length]. rewrite Hq, IH1, IH2, IH3, <- Hi.
    repeat split. }
  destruct H as (H1 & H2 & H3).
  rewrite closest_cases. cbv zeta. rewrite H1, H2, length_map, H3.
  rewrite Nat.eqb_refl.
  destruct xy; [congruence | reflexivity].
Qed.

(** X12: whatever the collaborators are, where the ray of a stimulus has
    no intersection and the ray of another one has two, the call on the two
    stimuli returns the two intersections of the second ray, one for each
    stimulus, and the call on each stimulus alone raises. *)
Lemma closest_batch_misattributes a b xy_n s0 s reverse q1 q2 :
  crossings xy_n (extended xy_n reverse a) (edges ((s0 :: s) ++ [s0])) = [] ->
  crossings xy_n (extended xy_n reverse b) (edges ((s0 :: s) ++ [s0]))
  = [q1; q2] ->
  closest_spectral_locus_wavelength [a; b] xy_n (s0 :: s) reverse
  = Ok ([nearest s0 (s ++ [s0]) q1; nearest s0 (s ++ [s0]) q2], [q1; q2]) /\
  closest_spectral_locus_wavelength [a] xy_n (s0 :: s) reverse
  = Raise (ValueError_no_intersection [a] xy_n) /\
  closest_spectral_locus_wavelength [b] xy_n (s0 :: s) reverse
  = Raise (ValueError_reshape 2 1).
Proof.
  intros Ha Hb. rewrite !closest_cases. unfold intersections.
  cbn [map concat]. rewrite Ha, Hb. repeat split.
Qed.

End Batches.

(** ** The observer on a triangle *)

Section Examples.

Import Triangle.

Local Open Scope float_scope.

Local Abbreviation G := Geometry.collaborators.

Example locus_of_cmfs :
  map (@XYZ_to_xy G) (values cmfs) = xy_s.
Proof. vm_compute. reflexivity. Qed.

(** The forward case: a positive wavelength and twice the same
    coordinate. *)
Example dominant_wavelength_green :
  @dominant_wavelength G [green] xy_n cmfs false
  = Ok ([550], [(0.375, 0.125)], [(0.375, 0.125)]).
Proof. vm_compute. reflexivity. Qed.

(** The case of the line of purples: a negative wavelength and two
    coordinates. *)
Example dominant_wavelength_purple :
  @dominant_wavelength G [purple] xy_n cmfs false
  = Ok ([-550], [(0, 0.125)], [(0.375, 0.125)]).
Proof. vm_compute. reflexivity. Qed.

Example complementary_wavelength_green :
  @complementary_wavelength G [green] xy_n cmfs
  = Ok ([-550], [(0, 0.125)], [(0.375, 0.125)]).
Proof. vm_compute. reflexivity. Qed.

Example purities_green :
  @excitation_purity G [green] xy_n cmfs = Ok [0.5] /\
  @colorimetric_purity G [green] xy_n cmfs = Ok [0.5].
Proof. vm_compute. split; reflexivity. Qed.

(** C8, on the batch of [away] and [across] seen from [outside]: the call
    on the batch returns an index and a coordinate for each stimulus, the
    two intersections of the second ray, while the call on each stimulus
    alone raises.  The same happens inside the triangle, on the batch of
    the achromatic point and of [corner], whose ray meets two sides at the
    first sample. *)
Theorem closest_batch_mixes_rows :
  (@closest_spectral_locus_wavelength G [away; across] outside xy_s false
   = Ok ([1; 0]%nat, [(0.375, 0.125); (0, 0.125)]) /\
   @closest_spectral_locus_wavelength G [away] outside xy_s false
   = Raise (ValueError_no_intersection [away] outside) /\
   @closest_spectral_locus_wavelength G [across] outside xy_s false
   = Raise (ValueError_reshape 2 1)) /\
  (@closest_spectral_locus_wavelength G [xy_n; corner] xy_n xy_s false
   = Ok ([0; 0]%nat, [(0, 0); (0, 0)]) /\
   @closest_spectral_locus_wavelength G [xy_n] xy_n xy_s false
   = Raise (ValueError_no_intersection [xy_n] xy_n) /\
   @closest_spectral_locus_wavelength G [corner] xy_n xy_s false
   = Raise (ValueError_reshape 2 1)).
Proof. vm_compute. repeat split. Qed.

(** C7, as stated, fails where the stimulus is the achromatic point: the
    distance from [xy_n] to [xy] is zero and [excitation_purity] and
    [colorimetric_purity] raise. *)
Lemma purity_raises_at_zero_distance :
  @euclidean_distance G xy_n xy_n = 0 /\
  @excitation_purity G [xy_n] xy_n cmfs
  = Raise (ValueError_no_intersection [xy_n] xy_n) /\
  @colorimetric_purity G [xy_n] xy_n cmfs
  = Raise (ValueError_no_intersection [xy_n] xy_n).
Proof. vm_compute. repeat split. Qed.

Lemma dominant_wavelength_sign_witness :
  Forall (fun w => (0 <? w) = true) (wavelengths cmfs) /\
  @dominant_wavelength G [green; purple] xy_n cmfs false
  = Ok ([550; -550], [(0.375, 0.125); (0, 0.125)],
        [(0.375, 0.125); (0.375, 0.125)]) /\
  exists edge i_wl_r xy_cwl_r wl_r,
    @purple_line (map (@XYZ_to_xy G) (values cmfs)) = Ok edge /\
    @closest_spectral_locus_wavelength
      G [green; purple] xy_n (map (@XYZ_to_xy G) (values cmfs)) true
    = Ok (i_wl_r, xy_cwl_r) /\
    np.take (wavelengths cmfs) i_wl_r = Ok wl_r /\
    forall k p,
      nth_error [green; purple] k = Some p ->
      exists w c1 c2 w_r c_r,
        nth_error [550; -550] k = Some w /\
        nth_error [(0.375, 0.125); (0, 0.125)] k = Some c1 /\
        nth_error [(0.375, 0.125); (0.375, 0.125)] k = Some c2 /\
        nth_error wl_r k = Some w_r /\
        nth_error xy_cwl_r k = Some c_r /\
        (w <? 0) =
          Intersection.intersect
            (@intersect_line_segments
               G (xy_n, @extended G xy_n false p) edge) /\
        if Intersection.intersect
             (@intersect_line_segments
                G (xy_n, @extended G xy_n false p) edge)
        then w = - w_r /\ c2 = c_r
        else c2 = c1.
Proof.
  assert (H1 : Forall (fun w => (0 <? w) = true) (wavelengths cmfs))
    by (repeat constructor).
  assert (H2 : @dominant_wavelength G [green; purple] xy_n cmfs false
               = Ok ([550; -550], [(0.375, 0.125); (0, 0.125)],
                     [(0.375, 0.125); (0.375, 0.125)]))
    by (vm_compute; reflexivity).
  split; [exact H1|]. split; [exact H2|].
  exact (@dominant_wavelength_sign G _ _ _ _ _ _ _ H1 H2).
Defined.

Lemma closest_index_valid_witness :
  @closest_spectral_locus_wavelength G [green; purple] xy_n xy_s false
  = Ok ([1; 0]%nat, [(0.375, 0.125); (0, 0.125)]) /\
  (Forall (fun i => (i < length xy_s)%nat) [1; 0]%nat /\
   length [1; 0]%nat = length [green; purple] /\
   length [(0.375, 0.125); (0, 0.125)] = length [green; purple] /\
   forall w : list float,
     length w = length xy_s ->
     exists wl,
       np.take w [1; 0]%nat = Ok wl /\
       length wl = length [green; purple]).
Proof.
  assert (H : @closest_spectral_locus_wavelength
                G [green; purple] xy_n xy_s false
              = Ok ([1; 0]%nat, [(0.375, 0.125); (0, 0.125)]))
    by (vm_compute; reflexivity).
  split; [exact H|].
  exact (@closest_index_valid G _ _ _ _ _ _ H).
Defined.

Lemma excitation_purity_ratio_witness :
  @dominant_wavelength G [green] xy_n cmfs false
  = Ok ([550], [(0.375, 0.125)], [(0.375, 0.125)]) /\
  exists P_e,
    @excitation_purity G [green] xy_n cmfs = Ok P_e /\
    length P_e = length [green] /\
    forall k p q,
      nth_error [green] k = Some p ->
      nth_error [(0.375, 0.125)] k = Some q ->
      nth_error P_e k
      = Some (@euclidean_distance G xy_n p / @euclidean_distance G xy_n q).
Proof.
  assert (H : @dominant_wavelength G [green] xy_n cmfs false
              = Ok ([550], [(0.375, 0.125)], [(0.375, 0.125)]))
    by (vm_compute; reflexivity).
  split; [exact H|].
  exact (@excitation_purity_ratio G _ _ _ _ _ _ H).
Defined.

Lemma colorimetric_purity_scaling_witness :
  @dominant_wavelength G [green] xy_n cmfs false
  = Ok ([550], [(0.375, 0.125)], [(0.375, 0.125)]) /\
  exists P_e P_c,
    @excitation_purity G [green] xy_n cmfs = Ok P_e /\
    @colorimetric_purity G [green] xy_n cmfs = Ok P_c /\
    length P_c = length [green] /\
    forall k p q e,
      nth_error [green] k = Some p ->
      nth_error [(0.375, 0.125)] k = Some q ->
      nth_error P_e k = Some e ->
      nth_error P_c k = Some (e * snd q / snd p).
Proof.
  assert (H : @dominant_wavelength G [green] xy_n cmfs false
              = Ok ([550], [(0.375, 0.125)], [(0.375, 0.125)]))
    by (vm_compute; reflexivity).
  split; [exact H|].
  exact (@colorimetric_purity_scaling G _ _ _ _ _ _ H).
Defined.

(** A stimulus of ordinate zero: the colorimetric purity is infinite. *)
Lemma purity_error_paths_witness :
  @colorimetric_purity G [dark] xy_n cmfs_raised = Ok [infinity] /\
  nth_error [dark] 0 = Some dark /\
  (snd dark =? 0) = true /\
  exists v,
    nth_error [infinity] 0 = Some v /\
    (v = infinity \/ v = neg_infinity \/ v = nan).
Proof.
  assert (H : @colorimetric_purity G [dark] xy_n cmfs_raised
              = Ok [infinity]) by (vm_compute; reflexivity).
  split; [exact H|]. split; [reflexivity|]. split; [reflexivity|].
  destruct (@purity_error_paths G [dark] xy_n cmfs_raised) as (_ & _ & Hz).
  exact (Hz [infinity] 0%nat dark H eq_refl eq_refl).
Defined.

Lemma closest_raises_no_intersection_witness :
  Forall (eq xy_n) [xy_n; xy_n] /\
  @intersections G xy_n (map (@extended G xy_n false) [xy_n; xy_n])
                 (xy_s ++ [(0, 0)]) = [] /\
  @closest_spectral_locus_wavelength G [xy_n; xy_n] xy_n xy_s false
  = Raise (ValueError_no_intersection [xy_n; xy_n] xy_n).
Proof.
  assert (F : Forall (eq xy_n) [xy_n; xy_n]) by (repeat constructor).
  destruct (closest_raises_no_intersection
              [xy_n; xy_n] xy_n (0, 0) [(0.5, 0); (0, 0.5)] false)
    as [Hiff Hdeg].
  split; [exact F|]. split.
  - apply (Hiff G). exact (Hdeg F).
  - exact (Hdeg F).
Defined.

End Examples.

(** ** The observer on a square *)

Section SquareExamples.

Import Square.

Local Open Scope float_scope.

Local Abbreviation G := Geometry.collaborators.

Example square_locus_of_cmfs :
  map (@XYZ_to_xy G) (values cmfs) = xy_s.
Proof. vm_compute. reflexivity. Qed.

(** C10, on the batch of [corner], [purple] and the achromatic point: the
    ray of [purple] meets the segment from the first to the last sample at
    [(0, 0.25)], which is the first coordinate that the call on [purple]
    alone returns; the call on the batch returns, with the negative
    wavelength of the line of purples for [purple], and gives it
    [(0.5, 0.5)] as first coordinate, the second intersection of the ray
    of [corner], which is not on the line of purples. *)
Theorem dominant_wavelength_batch_first_coordinate :
  @purple_line (map (@XYZ_to_xy G) (values cmfs)) = Ok ((0, 0), (0, 0.5)) /\
  @intersect_line_segments
    G (xy_n, @extended G xy_n false purple) ((0, 0), (0, 0.5))
  = {| Intersection.xy := (0, 0.25); Intersection.intersect := true |} /\
  @dominant_wavelength G [purple] xy_n cmfs false
  = Ok ([-500], [(0, 0.25)], [(0.5, 0.25)]) /\
  @dominant_wavelength G [corner; purple; xy_n] xy_n cmfs false
  = Ok ([600; -400; 400],
        [(0.5, 0.5); (0.5, 0.5); (0, 0.25)],
        [(0.5, 0.5); (0, 0); (0, 0.25)]) /\
  @closest_spectral_locus_wavelength G [corner] xy_n xy_s false
  = Raise (ValueError_reshape 2 1) /\
  @closest_spectral_locus_wavelength G [xy_n] xy_n xy_s false
  = Raise (ValueError_no_intersection [xy_n] xy_n).
Proof. vm_compute. repeat split. Qed.

End SquareExamples.

(** ** Coordinate transformations *)

Section Overflow.

Import Coordinates.

Local Open Scope float_scope.

Context (library : Library float).

(** Where the norm is an infinity or NaN, so are the three coordinates that
    [spherical_to_cartesian] computes from it. *)
Lemma spherical_overflow (tol x y z : float) :
  is_finite (norm x y z) = false ->
  let '(x', y', z') :=
    spherical_to_cartesian (cartesian_to_spherical (x, y, z)) in
  is_finite x' = false /\ is_finite y' = false /\ is_finite z' = false /\
  within_tolerance tol (x', y', z') (x, y, z) = false.
Proof.
  intros H.
  cbn [cartesian_to_spherical spherical_to_cartesian within_tolerance].
  assert (Hx : is_finite
                 (mul (mul (norm x y z) (cos (arctan2 z (hypot x y))))
                      (cos (arctan2 y x))) = false)
    by now apply Binary64.mul_not_finite, Binary64.mul_not_finite.
  repeat split.
  - exact Hx.
  - now apply Binary64.mul_not_finite, Binary64.mul_not_finite.
  - now apply Binary64.mul_not_finite.
  - now rewrite (Binary64.far_not_finite tol _ x Hx).
Qed.

(** Where [hypot(x, y)] is an infinity or NaN, so are the two coordinates
    that [cylindrical_to_cartesian] computes from it. *)
Lemma cylindrical_overflow (tol x y z : float) :
  is_finite (hypot x y) = false ->
  let '(x', y', z') :=
    cylindrical_to_cartesian (cartesian_to_cylindrical (x, y, z)) in
  is_finite x' = false /\ is_finite y' = false /\
  within_tolerance tol (x', y', z') (x, y, z) = false.
Proof.
  intros H.
  cbn [cartesian_to_cylindrical cylindrical_to_cartesian within_tolerance].
  assert (Hx : is_finite (mul (hypot x y) (cos (arctan2 y x))) = false)
    by now apply Binary64.mul_not_finite.
  repeat split.
  - exact Hx.
  - now apply Binary64.mul_not_finite.
  - now rewrite (Binary64.far_not_finite tol _ x Hx).
Qed.

End Overflow.

Section RoundTrip.

Local Open Scope R_scope.

Local Abbreviation arctan2 := Coordinates.real_arctan2.
Local Abbreviation hypot x y := (sqrt (x * x + y * y)) (only parsing).

Lemma hypot_pos_x x y : 0 < x -> hypot x y = x * sqrt (1 + (y / x)²).
Proof.
  intros Hx.
  replace (x * x + y * y) with (x² * (1 + (y / x)²))
    by (unfold Rsqr; field; lra).
  rewrite sqrt_mult;
    [| apply Rle_0_sqr | generalize (Rle_0_sqr (y / x)); lra].
  rewrite sqrt_Rsqr; lra.
Qed.

Lemma hypot_neg_x x y : x < 0 -> hypot x y = - x * sqrt (1 + (y / x)²).
Proof.
  intros Hx.
  replace (x * x + y * y) with ((- x)² * (1 + (y / x)²))
    by (unfold Rsqr; field; lra).
  rewrite sqrt_mult;
    [| apply Rle_0_sqr | generalize (Rle_0_sqr (y / x)); lra].
  rewrite sqrt_Rsqr; lra.
Qed.

Lemma sqrt_1_sqr_pos t : 0 < sqrt (1 + t²).
Proof. apply sqrt_lt_R0. generalize (Rle_0_sqr t); lra. Qed.

(** The abscissa of a point from its polar coordinates. *)
Lemma polar_cos x y : hypot x y * cos (arctan2 y x) = x.
Proof.
  unfold Coordinates.real_arctan2.
  destruct (total_order_T x 0) as [[Hx|Hx]|Hx].
  - rewrite hypot_neg_x by assumption.
    assert (P := sqrt_1_sqr_pos (y / x)).
    destruct (Rle_dec 0 y).
    + rewrite neg_cos, cos_atan. field. lra.
    + unfold Rminus. rewrite <- (cos_neg (atan (y / x) + - PI)).
      replace (- (atan (y / x) + - PI)) with (- atan (y / x) + PI) by ring.
      rewrite neg_cos, cos_neg, cos_atan. field. lra.
  - subst x. destruct (total_order_T y 0) as [[Hy|Hy]|Hy].
    + rewrite cos_neg, cos_PI2. ring.
    + subst y. replace (0 * 0 + 0 * 0) with 0 by ring.
      rewrite sqrt_0. ring.
    + rewrite cos_PI2. ring.
  - rewrite hypot_pos_x by assumption. rewrite cos_atan.
    assert (P := sqrt_1_sqr_pos (y / x)). field. lra.
Qed.

(** The ordinate of a point from its polar coordinates. *)
Lemma polar_sin x y : hypot x y * sin (arctan2 y x) = y.
Proof.
  unfold Coordinates.real_arctan2.
  destruct (total_order_T x 0) as [[Hx|Hx]|Hx].
  - rewrite hypot_neg_x by assumption.
    assert (P := sqrt_1_sqr_pos (y / x)).
    destruct (Rle_dec 0 y).
    + rewrite neg_sin, sin_atan. field. lra.
    + unfold Rminus.
      rewrite <- (Ropp_involutive (sin (atan (y / x) + - PI))), <- sin_neg.
      replace (- (atan (y / x) + - PI)) with (- atan (y / x) + PI) by ring.
      rewrite neg_sin, sin_neg, sin_atan. field. lra.
  - subst x.
    replace (0 * 0 + y * y) with (y²) by (unfold Rsqr; ring).
    destruct (total_order_T y 0) as [[Hy|Hy]|Hy].
    + rewrite sin_neg, sin_PI2, (Rsqr_neg y), sqrt_Rsqr; lra.
    + subst y. rewrite sin_0. ring.
    + rewrite sin_PI2, sqrt_Rsqr; lra.
  - rewrite hypot_pos_x by assumption. rewrite sin_atan.
    assert (P := sqrt_1_sqr_pos (y / x)). field. lra.
Qed.

Lemma norm_hypot x y z :
  sqrt (x * x + y * y + z * z) = hypot (hypot x y) z.
Proof.
  f_equal.
  rewrite sqrt_sqrt; [ring|].
  generalize (Rle_0_sqr x) (Rle_0_sqr y). unfold Rsqr. lra.
Qed.

(** The transformations over the real numbers, written with the
    operations of the real numbers. *)
Ltac real_arithmetic :=
  cbv [Coordinates.cartesian_to_spherical Coordinates.spherical_to_cartesian
       Coordinates.cartesian_to_cylindrical
       Coordinates.cylindrical_to_cartesian
       Coordinates.norm Coordinates.hypot
       Coordinates.add Coordinates.mul Coordinates.sqrt
       Coordinates.cos Coordinates.sin Coordinates.arctan2
       Coordinates.real Coordinates.real_library].

Lemma spherical_round_trip (a : R * R * R) :
  Coordinates.spherical_to_cartesian (Coordinates.cartesian_to_spherical a)
  = a.
Proof.
  destruct a as [[x y] z]. real_arithmetic.
  rewrite norm_hypot.
  rewrite (polar_cos (sqrt (x * x + y * y)) z),
    (polar_sin (sqrt (x * x + y * y)) z).
  rewrite polar_cos, polar_sin. reflexivity.
Qed.

Lemma cylindrical_round_trip (a : R * R * R) :
  Coordinates.cylindrical_to_cartesian (Coordinates.cartesian_to_cylindrical a)
  = a.
Proof.
  destruct a as [[x y] z]. real_arithmetic.
  rewrite polar_cos, polar_sin. reflexivity.
Qed.




End RoundTrip.

(** * Further properties of [dominant.py] *)

(** ** The first minimum *)

Section FirstMinimum.

Local Open Scope float_scope.

(** The scan of [np.argmin] over a row without NaN, [pre] being the part
    already read and [mp] its first minimum, ends on the first minimum of
    the whole row. *)
Lemma argmin_loop_min (l : list float) :
  forall (pre : list float) (mp : float) (min_ind : nat),
    Forall (fun v => is_nan v = false) (pre ++ l) ->
    nth_error pre min_ind = Some mp ->
    Forall (fun v => (mp <=? v) = true) pre ->
    (forall j v, (j < min_ind)%nat -> nth_error pre j = Some v ->
                 (v <=? mp) = false) ->
    exists m,
      nth_error (pre ++ l) (np.argmin_loop mp min_ind (length pre) l)
      = Some m /\
      Forall (fun v => (m <=? v) = true) (pre ++ l) /\
      forall j v,
        (j < np.argmin_loop mp min_ind (length pre) l)%nat ->
        nth_error (pre ++ l) j = Some v -> (v <=? m) = false.
Proof.
  induction l as [|x l IH]; intros pre mp min_ind Hnan Hmp Hle Hlt.
  - cbn [np.argmin_loop]. rewrite app_nil_r. exists mp. auto.
  - cbn [np.argmin_loop].
    assert (Hx : is_nan x = false).
    { rewrite Forall_forall in Hnan. apply Hnan.
      apply in_or_app. right. now left. }
    assert (Hlen : length (pre ++ [x]) = S (length pre))
      by (rewrite length_app; cbn [length]; lia).
    replace (pre ++ x :: l) with ((pre ++ [x]) ++ l) in *
      by (rewrite <- app_assoc; reflexivity).
    rewrite <- Hlen.
    destruct (mp <=? x) eqn:Hmx.
    + apply IH; auto.
      * rewrite nth_error_app1; [exact Hmp|].
        apply nth_error_Some. congruence.
      * apply Forall_app. split; [exact Hle|]. now constructor.
      * intros j v Hj Hv. apply (Hlt j v Hj).
        rewrite nth_error_app1 in Hv; [exact Hv|].
        assert (min_ind < length pre)%nat
          by (apply nth_error_Some; congruence).
        lia.
    + rewrite Hx.
      apply (IH (pre ++ [x]) x (length pre)); auto.
      * rewrite nth_error_app2 by lia. now rewrite Nat.sub_diag.
      * apply Forall_app. split.
        -- rewrite Forall_forall in *. intros v Hv.
           exact (Binary64.leb_lt_trans mp x v Hx Hmx (Hle v Hv)).
        -- constructor; [now apply Binary64.leb_refl | constructor].
      * intros j v Hj Hv. rewrite nth_error_app1 in Hv by exact Hj.
        destruct (v <=? x) eqn:Hvx; [|reflexivity].
        rewrite Forall_forall in Hle.
        pose proof (Binary64.leb_trans mp v x
                      (Hle v (nth_error_In _ _ Hv)) Hvx).
        congruence.
Qed.

(** [np.argmin] over a row without NaN returns the index of an entry that
    no entry is below, the first such index. *)
Lemma argmin_min (x : float) (l : list float) :
  Forall (fun v => is_nan v = false) (x :: l) ->
  exists m,
    nth_error (x :: l) (np.argmin x l) = Some m /\
    Forall (fun v => (m <=? v) = true) (x :: l) /\
    forall j v,
      (j < np.argmin x l)%nat -> nth_error (x :: l) j = Some v ->
      (v <=? m) = false.
Proof.
  intros Hnan. unfold np.argmin.
  assert (Hx : is_nan x = false) by now inversion Hnan.
  rewrite Hx.
  apply (argmin_loop_min l [x] x 0%nat); auto.
  - constructor; [now apply Binary64.leb_refl | constructor].
  - intros j v Hj. lia.
Qed.

End FirstMinimum.

(** ** More on [closest_spectral_locus_wavelength] *)

Section ClosestOutcome.

Context {collaborators : Collaborators}.

Lemma crossings_valid xy_n e l_2 :
  Forall (fun p => np.isnan_any p = false) (crossings xy_n e l_2).
Proof.
  apply Forall_forall. intros p Hp. unfold crossings in Hp.
  apply filter_In in Hp. now apply negb_true_iff.
Qed.

Lemma intersections_valid xy_n xy_e xy_s :
  Forall (fun p => np.isnan_any p = false) (intersections xy_n xy_e xy_s).
Proof.
  unfold intersections. apply Forall_concat, Forall_map, Forall_forall.
  intros e _. apply crossings_valid.
Qed.

Lemma closest_take_Ok {A : Type} xy xy_n xy_s reverse i_wl xy_wl (w : list A) :
  closest_spectral_locus_wavelength xy xy_n xy_s reverse = Ok (i_wl, xy_wl) ->
  length w = length xy_s ->
  exists wl, np.take w i_wl = Ok wl /\ length wl = length xy.
Proof.
  intros Hc Hw.
  destruct (closest_Ok_inv _ _ _ _ _ _ Hc) as (s0 & s & -> & _ & L & ->).
  destruct (take_Ok w (map (nearest s0 (s ++ [s0])) xy_wl)) as [wl [Hwl Hl]].
  - apply Forall_forall. intros i Hi. apply in_map_iff in Hi.
    destruct Hi as [p [<- _]]. rewrite Hw. apply nearest_closed.
  - exists wl. split; [exact Hwl|]. now rewrite Hl, length_map.
Qed.

Lemma combine_app_last {A : Type} (l : list A) (a b : A) :
  combine (l ++ [a]) (b :: l) = combine l (b :: l) ++ [(a, last l b)].
Proof.
  revert b. induction l as [|x l IH]; intros b; [reflexivity|].
  change (combine ((x :: l) ++ [a]) (b :: x :: l))
    with ((x, b) :: combine (l ++ [a]) (x :: l)).
  rewrite IH, last_cons_default. reflexivity.
Qed.

(** X1: [closest_spectral_locus_wavelength] returns exactly when the locus
    has a sample, there is a stimulus, and the intersections that remain
    after the filter are as many as the stimuli. *)
Theorem closest_returns_iff xy xy_n xy_s reverse :
  (exists r, closest_spectral_locus_wavelength xy xy_n xy_s reverse = Ok r)
  <->
  (exists s0 s,
      xy_s = s0 :: s /\
      xy <> [] /\
      length (intersections xy_n (map (extended xy_n reverse) xy)
                            (xy_s ++ [s0]))
      = length xy).
Proof.
  split.
  - intros [[i_wl xy_wl] Hc].
    destruct (closest_Ok_inv _ _ _ _ _ _ Hc) as (s0 & s & Hs & Hx & L & _).
    exists s0, s. split; [exact Hs|]. split; [|now rewrite <- Hx].
    intros ->. subst xy_s. rewrite closest_cases in Hc.
    unfold intersections in Hc. cbn [map concat length Nat.eqb] in Hc.
    discriminate.
  - intros (s0 & s & -> & Hne & L). rewrite closest_cases. cbv zeta.
    rewrite L. destruct xy as [|p xy]; [congruence|].
    cbn [length Nat.eqb]. rewrite Nat.eqb_refl. eexists. reflexivity.
Qed.

(** X2: no coordinate that [closest_spectral_locus_wavelength] returns has a
    NaN component. *)
Theorem closest_no_nan xy xy_n xy_s reverse i_wl xy_wl :
  closest_spectral_locus_wavelength xy xy_n xy_s reverse = Ok (i_wl, xy_wl) ->
  Forall (fun p => np.isnan_any p = false) xy_wl.
Proof.
  intros Hc.
  destruct (closest_Ok_inv _ _ _ _ _ _ Hc) as (s0 & s & _ & -> & _ & _).
  apply intersections_valid.
Qed.

(** X3: the index that [closest_spectral_locus_wavelength] returns for an
    intersection whose distances to the samples are not NaN is the index of
    a sample that no sample is nearer than, and the first such index. *)
Theorem closest_nearest_sample xy xy_n xy_s reverse i_wl xy_wl k i p :
  closest_spectral_locus_wavelength xy xy_n xy_s reverse = Ok (i_wl, xy_wl) ->
  nth_error i_wl k = Some i ->
  nth_error xy_wl k = Some p ->
  Forall (fun s => is_nan (cdist p s) = false) xy_s ->
  exists s_i,
    nth_error xy_s i = Some s_i /\
    Forall (fun s => (cdist p s_i <=? cdist p s)%float = true) xy_s /\
    forall j s,
      j < i -> nth_error xy_s j = Some s ->
      (cdist p s <=? cdist p s_i)%float = false.
Proof.
  intros Hc Hi Hp Hnan.
  destruct (closest_Ok_inv _ _ _ _ _ _ Hc) as (s0 & s & -> & _ & _ & ->).
  rewrite nth_error_map, Hp in Hi. injection Hi as <-.
  pose proof (nearest_closed s0 s p) as Hlt.
  assert (Hrow : Forall (fun v => is_nan v = false)
                        (cdist p s0 :: map (cdist p) (s ++ [s0]))).
  { change (Forall (fun v => is_nan v = false)
                   (map (cdist p) ((s0 :: s) ++ [s0]))).
    apply Forall_map, Forall_app. split; [exact Hnan|].
    constructor; [|constructor]. now inversion Hnan. }
  destruct (argmin_min _ _ Hrow) as (m & Hm & Hle & Hfirst).
  fold (nearest s0 (s ++ [s0]) p) in Hm, Hfirst.
  set (i := nearest s0 (s ++ [s0]) p) in *.
  change (cdist p s0 :: map (cdist p) (s ++ [s0]))
    with (map (cdist p) ((s0 :: s) ++ [s0])) in Hm, Hle, Hfirst.
  rewrite nth_error_map, nth_error_app1 in Hm by exact Hlt.
  destruct (nth_error (s0 :: s) i) as [s_i|] eqn:Hsi; [|discriminate].
  injection Hm as <-. exists s_i. split; [reflexivity|]. split.
  - rewrite Forall_map in Hle. apply Forall_app in Hle. tauto.
  - intros j sj Hj Hsj. apply (Hfirst j _ Hj).
    rewrite nth_error_map, nth_error_app1, Hsj by lia. reflexivity.
Qed.

(** X4: every coordinate that [closest_spectral_locus_wavelength] returns
    is the point that [intersect_line_segments] gives for the ray of one of
    the stimuli and one row of the closed locus. *)
Theorem closest_crossing_origin xy xy_n xy_s reverse i_wl xy_wl q :
  closest_spectral_locus_wavelength xy xy_n xy_s reverse = Ok (i_wl, xy_wl) ->
  In q xy_wl ->
  exists p s0 l_2,
    In p xy /\
    hd_error xy_s = Some s0 /\
    In l_2 (edges (xy_s ++ [s0])) /\
    q = Intersection.xy
          (intersect_line_segments (xy_n, extended xy_n reverse p) l_2).
Proof.
  intros Hc Hq.
  destruct (closest_Ok_inv _ _ _ _ _ _ Hc) as (s0 & s & -> & -> & _ & _).
  unfold intersections in Hq. apply in_concat in Hq.
  destruct Hq as (c & Hc' & Hq). rewrite map_map in Hc'.
  apply in_map_iff in Hc'. destruct Hc' as (p & <- & Hp).
  unfold crossings in Hq. apply filter_In in Hq. destruct Hq as [Hq _].
  apply in_map_iff in Hq. destruct Hq as (l_2 & <- & Hl).
  exists p, s0, l_2. repeat split; auto.
Qed.

End ClosestOutcome.

(** X5: the rows of the closed locus are a row of length zero at the first
    sample, one row from each sample to the sample before it, and last the
    row from the first sample to the last one, which is the segment that
    [dominant_wavelength] tests for the line of purples. *)
Theorem closed_locus_edges (s0 : point) (s : list point) :
  edges ((s0 :: s) ++ [s0])
  = (s0, s0) :: combine s (s0 :: s) ++ [(s0, last (s0 :: s) s0)] /\
  purple_line (s0 :: s) = Ok (s0, last (s0 :: s) s0).
Proof.
  split; [|reflexivity].
  unfold edges. rewrite roll_app.
  change (combine ((s0 :: s) ++ [s0]) (s0 :: s0 :: s))
    with ((s0, s0) :: combine (s ++ [s0]) (s0 :: s)).
  rewrite combine_app_last, last_cons_default. reflexivity.
Qed.

(** ** More on [dominant_wavelength] *)

Section WavelengthOutcome.

Context {collaborators : Collaborators}.

Lemma where_length {A : Type} (c : list bool) (a b : list A) n :
  length c = n -> length a = n -> length b = n ->
  length (np.where_ c a b) = n.
Proof.
  revert a b n. induction c as [|c0 c IH]; intros [|a0 a] [|b0 b] n;
    simpl; intros; subst; try discriminate; auto.
Qed.

Lemma take_length {A : Type} (a : list A) i v :
  np.take a i = Ok v -> length v = length i.
Proof. apply mapM_length. Qed.

Lemma purple_line_Ok xy xy_n xy_s reverse r :
  closest_spectral_locus_wavelength xy xy_n xy_s reverse = Ok r ->
  exists purple, purple_line xy_s = Ok purple.
Proof.
  destruct r as [i_wl xy_wl]. intros Hc.
  destruct (closest_Ok_inv _ _ _ _ _ _ Hc) as (s0 & s & -> & _).
  eexists. reflexivity.
Qed.

(** X6: on an observer that has as many wavelengths as values,
    [dominant_wavelength] raises what the search in the direction asked for
    raises and, where that search returns, what the search in the other
    direction raises; so that [complementary_wavelength] returns on the
    stimuli on which [dominant_wavelength] returns, and on no other. *)
Theorem dominant_wavelength_exception xy xy_n cmfs reverse :
  length (wavelengths cmfs) = length (values cmfs) ->
  raised (dominant_wavelength xy xy_n cmfs reverse)
  = match raised (closest_spectral_locus_wavelength
                    xy xy_n (map XYZ_to_xy (values cmfs)) reverse) with
    | Some e => Some e
    | None => raised (closest_spectral_locus_wavelength
                        xy xy_n (map XYZ_to_xy (values cmfs))
                        (negb reverse))
    end /\
  (raised (complementary_wavelength xy xy_n cmfs) = None
   <-> raised (dominant_wavelength xy xy_n cmfs false) = None).
Proof.
  intros Hw.
  assert (Hw' : length (wavelengths cmfs)
                = length (map XYZ_to_xy (values cmfs)))
    by now rewrite length_map.
  assert (H : forall direction,
             raised (dominant_wavelength xy xy_n cmfs direction)
             = match raised (closest_spectral_locus_wavelength
                               xy xy_n (map XYZ_to_xy (values cmfs))
                               direction) with
               | Some e => Some e
               | None => raised (closest_spectral_locus_wavelength
                                   xy xy_n (map XYZ_to_xy (values cmfs))
                                   (negb direction))
               end).
  { intros direction. unfold dominant_wavelength.
    destruct (closest_spectral_locus_wavelength _ _ _ direction)
      as [[i_wl xy_wl]|e] eqn:Hc; cbn [bind raised]; [|reflexivity].
    destruct (closest_take_Ok _ _ _ _ _ _ _ Hc Hw') as [wl [-> _]].
    destruct (purple_line_Ok _ _ _ _ _ Hc) as [purple ->]. cbn [bind].
    destruct (closest_spectral_locus_wavelength _ _ _ (negb direction))
      as [[i_wl_r xy_cwl_r]|e] eqn:Hcr; cbn [bind raised]; [|reflexivity].
    destruct (closest_take_Ok _ _ _ _ _ _ _ Hcr Hw') as [wl_r [-> _]].
    reflexivity. }
  split; [apply H|].
  unfold complementary_wavelength. rewrite !H. cbn [negb].
  destruct (raised (closest_spectral_locus_wavelength _ _ _ true)),
           (raised (closest_spectral_locus_wavelength _ _ _ false));
    split; congruence.
Qed.

(** X7: the three arrays that [dominant_wavelength] returns have one row
    for each stimulus. *)
Theorem dominant_wavelength_shape xy xy_n cmfs reverse wl xy_wl xy_cwl :
  dominant_wavelength xy xy_n cmfs reverse = Ok (wl, xy_wl, xy_cwl) ->
  length wl = length xy /\
  length xy_wl = length xy /\
  length xy_cwl = length xy.
Proof.
  intros Hd.
  destruct (dominant_wavelength_Ok_inv _ _ _ _ _ _ _ Hd)
    as (i_wl & wl_f & purple & i_wl_r & xy_cwl_r & wl_r
        & Hc & Ht & _ & Hcr & Htr & -> & ->).
  destruct (closest_lengths _ _ _ _ _ _ Hc) as [Li Lx].
  destruct (closest_lengths _ _ _ _ _ _ Hcr) as [Lir Lxr].
  apply take_length in Ht, Htr.
  repeat split; auto; apply where_length;
    rewrite ?length_map; congruence.
Qed.

Lemma In_same_length {A B : Type} (xy : list B) (l : list A) (x : A) :
  length l = length xy -> In x l ->
  exists k p, nth_error xy k = Some p /\ nth_error l k = Some x.
Proof.
  intros L Hx.
  destruct (In_nth_error _ _ Hx) as [k Hk].
  assert (Hlt : k < length xy)
    by (rewrite <- L; apply nth_error_Some; congruence).
  apply nth_error_Some in Hlt.
  destruct (nth_error xy k) as [p|] eqn:Hp; [|congruence].
  now exists k, p.
Qed.

(** X8: every wavelength that [dominant_wavelength] returns is a wavelength
    of the observer or the opposite of one. *)
Theorem dominant_wavelength_is_sample xy xy_n cmfs reverse wl xy_wl xy_cwl :
  dominant_wavelength xy xy_n cmfs reverse = Ok (wl, xy_wl, xy_cwl) ->
  Forall (fun w =>
            In w (wavelengths cmfs) \/
            exists w0, In w0 (wavelengths cmfs) /\ w = (- w0)%float) wl.
Proof.
  intros Hd. apply Forall_forall. intros w Hw.
  destruct (dominant_wavelength_rows _ _ _ _ _ _ _ Hd)
    as (purple & i_wl & wl_f & i_wl_r & xy_cwl_r & wl_r
        & _ & Hc & Ht & Hcr & Htr & Hrows).
  assert (L : length wl = length xy).
  { destruct (dominant_wavelength_Ok_inv _ _ _ _ _ _ _ Hd)
      as (i_wl' & wl_f' & purple' & i_wl_r' & xy_cwl_r' & wl_r'
          & Hc' & Ht' & _ & Hcr' & Htr' & -> & _).
    destruct (closest_lengths _ _ _ _ _ _ Hc') as [Li _].
    destruct (closest_lengths _ _ _ _ _ _ Hcr') as [Lir _].
    apply take_length in Ht', Htr'.
    apply where_length; rewrite ?length_map; congruence. }
  destruct (In_same_length xy _ _ L Hw)
    as (k & p & Hp & Hk).
  destruct (Hrows k p Hp)
    as (w_f & w_r & c1 & c_r & _ & Hwf & _ & Hwr & _ & _ & Hw' & _).
  rewrite Hk in Hw'. injection Hw' as ->.
  destruct (Intersection.intersect _); [right; now exists w_r | now left].
Qed.

(** X9: no coordinate that [dominant_wavelength] returns, first or second,
    has a NaN component. *)
Theorem dominant_wavelength_no_nan xy xy_n cmfs reverse wl xy_wl xy_cwl :
  dominant_wavelength xy xy_n cmfs reverse = Ok (wl, xy_wl, xy_cwl) ->
  Forall (fun p => np.isnan_any p = false) xy_wl /\
  Forall (fun p => np.isnan_any p = false) xy_cwl.
Proof.
  intros Hd.
  destruct (dominant_wavelength_rows _ _ _ _ _ _ _ Hd)
    as (purple & i_wl & wl_f & i_wl_r & xy_cwl_r & wl_r
        & _ & Hc & _ & Hcr & _ & Hrows).
  assert (V : Forall (fun p => np.isnan_any p = false) xy_wl).
  { destruct (closest_Ok_inv _ _ _ _ _ _ Hc) as (s0 & s & _ & -> & _ & _).
    apply intersections_valid. }
  assert (Vr : Forall (fun p => np.isnan_any p = false) xy_cwl_r).
  { destruct (closest_Ok_inv _ _ _ _ _ _ Hcr) as (s0 & s & _ & -> & _ & _).
    apply intersections_valid. }
  split; [exact V|].
  assert (L : length xy_cwl = length xy).
  { destruct (dominant_wavelength_Ok_inv _ _ _ _ _ _ _ Hd)
      as (i_wl' & wl_f' & purple' & i_wl_r' & xy_cwl_r' & wl_r'
          & Hc' & _ & _ & Hcr' & _ & _ & ->).
    destruct (closest_lengths _ _ _ _ _ _ Hc') as [_ Lx].
    destruct (closest_lengths _ _ _ _ _ _ Hcr') as [_ Lxr].
    apply where_length; rewrite ?length_map; congruence. }
  apply Forall_forall. intros q Hq.
  destruct (In_same_length xy _ _ L Hq)
    as (k & p & Hp & Hk).
  destruct (Hrows k p Hp)
    as (w_f & w_r & c1 & c_r & _ & _ & _ & _ & Hc1 & Hcr' & _ & Hq').
  rewrite Hk in Hq'. injection Hq' as ->.
  rewrite Forall_forall in V, Vr.
  destruct (Intersection.intersect _);
    [apply Vr | apply V]; eapply nth_error_In; eauto.
Qed.

(** X10: [dominant_wavelength] and [complementary_wavelength] run the same
    two searches: for each stimulus the first coordinate of each is the
    intersection that the other one substitutes, and the wavelength that one
    of them returns where its flag is unset is the opposite of the
    wavelength that the other one returns where its flag is set. *)
Theorem dominant_complementary_rows
        xy xy_n cmfs wl_d a_d b_d wl_c a_c b_c :
  dominant_wavelength xy xy_n cmfs false = Ok (wl_d, a_d, b_d) ->
  complementary_wavelength xy xy_n cmfs = Ok (wl_c, a_c, b_c) ->
  exists purple,
    purple_line (map XYZ_to_xy (values cmfs)) = Ok purple /\
    forall k p,
      nth_error xy k = Some p ->
      exists w_f w_r c_f c_r,
        In w_f (wavelengths cmfs) /\ In w_r (wavelengths cmfs) /\
        nth_error a_d k = Some c_f /\
        nth_error a_c k = Some c_r /\
        nth_error wl_d k
        = Some (if Intersection.intersect
                     (intersect_line_segments
                        (xy_n, extended xy_n false p) purple)
                then (- w_r)%float else w_f) /\
        nth_error b_d k
        = Some (if Intersection.intersect
                     (intersect_line_segments
                        (xy_n, extended xy_n false p) purple)
                then c_r else c_f) /\
        nth_error wl_c k
        = Some (if Intersection.intersect
                     (intersect_line_segments
                        (xy_n, extended xy_n true p) purple)
                then (- w_f)%float else w_r) /\
        nth_error b_c k
        = Some (if Intersection.intersect
                     (intersect_line_segments
                        (xy_n, extended xy_n true p) purple)
                then c_f else c_r).
Proof.
  unfold complementary_wavelength. intros Hd Hc.
  destruct (dominant_wavelength_rows _ _ _ _ _ _ _ Hd)
    as (purple & i_f & wl_f & i_r & x_r & wl_r
        & Hp & Hcf & Htf & Hcr & Htr & Hrows).
  destruct (dominant_wavelength_rows _ _ _ _ _ _ _ Hc)
    as (purple' & i_f' & wl_f' & i_r' & x_r' & wl_r'
        & Hp' & Hcf' & Htf' & Hcr' & Htr' & Hrows').
  cbn [negb] in *.
  rewrite Hp in Hp'. injection Hp' as <-.
  rewrite Hcr in Hcf'. injection Hcf' as <- <-.
  rewrite Hcf in Hcr'. injection Hcr' as <- <-.
  rewrite Htr in Htf'. injection Htf' as <-.
  rewrite Htf in Htr'. injection Htr' as <-.
  exists purple. split; [exact Hp|]. intros k p Hk.
  destruct (Hrows k p Hk)
    as (w_f & w_r & c_f & c_r & Hwf & Iwf & Hwr & Iwr & Hcf1 & Hcr1
        & Hwl & Hb).
  destruct (Hrows' k p Hk)
    as (w_f' & w_r' & c_f' & c_r' & Hwf' & _ & Hwr' & _ & Hcf1' & Hcr1'
        & Hwl' & Hb').
  assert (w_f' = w_r) by congruence.
  assert (w_r' = w_f) by congruence.
  assert (c_f' = c_r) by congruence.
  assert (c_r' = c_f) by congruence.
  subst. exists w_f, w_r, c_f, c_r. repeat split; auto.
Qed.

End WavelengthOutcome.

(** ** More on batches *)

Section BatchOutcome.

Context {collaborators : Collaborators}.

Lemma length_one {A : Type} (l : list A) :
  length l = 1 -> exists a, l = [a].
Proof.
  destruct l as [|a [|b l]]; try discriminate. intros _. now exists a.
Qed.

Lemma take_cons {A : Type} (w : list A) i v i_wl wl :
  nth_error w i = Some v -> np.take w i_wl = Ok wl ->
  np.take w (i :: i_wl) = Ok (v :: wl).
Proof.
  unfold np.take. intros Hi Hl. cbn [mapM]. now rewrite Hi, Hl.
Qed.

(** What [dominant_wavelength] has computed for a single stimulus. *)
Lemma dominant_wavelength_single p xy_n cmfs reverse w a b :
  dominant_wavelength [p] xy_n cmfs reverse = Ok ([w], [a], [b]) ->
  exists purple i w_f i_r c_r w_r,
    purple_line (map XYZ_to_xy (values cmfs)) = Ok purple /\
    closest_spectral_locus_wavelength
      [p] xy_n (map XYZ_to_xy (values cmfs)) reverse = Ok ([i], [a]) /\
    nth_error (wavelengths cmfs) i = Some w_f /\
    closest_spectral_locus_wavelength
      [p] xy_n (map XYZ_to_xy (values cmfs)) (negb reverse)
    = Ok ([i_r], [c_r]) /\
    nth_error (wavelengths cmfs) i_r = Some w_r /\
    w = (if Intersection.intersect
              (intersect_line_segments (xy_n, extended xy_n reverse p) purple)
         then (- w_r)%float else w_f) /\
    b = (if Intersection.intersect
              (intersect_line_segments (xy_n, extended xy_n reverse p) purple)
         then c_r else a).
Proof.
  intros Hd.
  destruct (dominant_wavelength_rows _ _ _ _ _ _ _ Hd)
    as (purple & i_wl & wl_f & i_wl_r & xy_cwl_r & wl_r
        & Hp & Hc & Ht & Hcr & Htr & Hrows).
  destruct (closest_lengths _ _ _ _ _ _ Hc) as [Li _].
  destruct (closest_lengths _ _ _ _ _ _ Hcr) as [Lir Lxr].
  destruct (length_one _ Li) as [i ->].
  destruct (length_one _ Lir) as [i_r ->].
  destruct (length_one _ Lxr) as [c_r ->].
  destruct (take_nth _ _ _ 0 i Ht eq_refl) as (w_f & Hwf & Hwf0).
  destruct (take_nth _ _ _ 0 i_r Htr eq_refl) as (w_r & Hwr & Hwr0).
  destruct (Hrows 0 p eq_refl)
    as (w_f' & w_r' & c1 & c_r' & Hwf' & _ & Hwr' & _ & Hc1 & Hcr'
        & Hw & Hb).
  cbn [nth_error] in Hc1, Hcr', Hw, Hb.
  assert (w_f' = w_f) by congruence. assert (w_r' = w_r) by congruence.
  injection Hc1 as <-. injection Hcr' as <-. subst w_f' w_r'.
  exists purple, i, w_f, i_r, c_r, w_r.
  repeat split; auto; congruence.
Qed.

(** The rows of the calls on each stimulus alone, put together. *)
Lemma dominant_wavelength_singles xy xy_n cmfs reverse purple
      (rs : list (float * point * point)) :
  purple_line (map XYZ_to_xy (values cmfs)) = Ok purple ->
  Forall2 (fun p r =>
             dominant_wavelength [p] xy_n cmfs reverse
             = Ok ([fst (fst r)], [snd (fst r)], [snd r])) xy rs ->
  exists (f r : list (nat * point)) (wl_f wl_r : list float),
    Forall2 (fun p r =>
               closest_spectral_locus_wavelength
                 [p] xy_n (map XYZ_to_xy (values cmfs)) reverse
               = Ok ([fst r], [snd r])) xy f /\
    Forall2 (fun p r =>
               closest_spectral_locus_wavelength
                 [p] xy_n (map XYZ_to_xy (values cmfs)) (negb reverse)
               = Ok ([fst r], [snd r])) xy r /\
    np.take (wavelengths cmfs) (map fst f) = Ok wl_f /\
    np.take (wavelengths cmfs) (map fst r) = Ok wl_r /\
    map snd f = map (fun r => snd (fst r)) rs /\
    np.where_
      (map (fun p => Intersection.intersect
                       (intersect_line_segments
                          (xy_n, extended xy_n reverse p) purple)) xy)
      (map PrimFloat.opp wl_r) wl_f
    = map (fun r => fst (fst r)) rs /\
    np.where_
      (map (fun p => Intersection.intersect
                       (intersect_line_segments
                          (xy_n, extended xy_n reverse p) purple)) xy)
      (map snd r) (map snd f)
    = map snd rs.
Proof.
  intros Hp F.
  induction F as [|p [[w a] b] xy rs Hd _
                    (f & r & wl_f & wl_r & Hf & Hr & Htf & Htr & Ha & Hw & Hb)].
  - exists [], [], [], []. repeat split; constructor.
  - cbn [fst snd] in Hd.
    destruct (dominant_wavelength_single _ _ _ _ _ _ _ Hd)
      as (purple' & i & w_f & i_r & c_r & w_r
          & Hp' & Hc & Hi & Hcr & Hir & -> & ->).
    rewrite Hp in Hp'. injection Hp' as <-.
    exists ((i, a) :: f), ((i_r, c_r) :: r), (w_f :: wl_f), (w_r :: wl_r).
    cbn [map fst snd np.where_].
    repeat split; auto using take_cons; congruence.
Qed.

Lemma dominant_wavelength_of_singles xy xy_n cmfs reverse
      (rs : list (float * point * point)) :
  xy <> [] ->
  Forall2 (fun p r =>
             dominant_wavelength [p] xy_n cmfs reverse
             = Ok ([fst (fst r)], [snd (fst r)], [snd r])) xy rs ->
  dominant_wavelength xy xy_n cmfs reverse
  = Ok (map (fun r => fst (fst r)) rs,
        map (fun r => snd (fst r)) rs,
        map snd rs).
Proof.
  intros Hne F.
  assert (Hp : exists purple,
             purple_line (map XYZ_to_xy (values cmfs)) = Ok purple).
  { destruct F as [|p [[w a] b] xy rs Hd _]; [congruence|].
    destruct (dominant_wavelength_single _ _ _ _ _ _ _ Hd)
      as (purple & _ & _ & _ & _ & _ & Hp & _).
    now exists purple. }
  destruct Hp as [purple Hp].
  destruct (dominant_wavelength_singles _ _ _ _ _ _ Hp F)
    as (f & r & wl_f & wl_r & Hf & Hr & Htf & Htr & Ha & Hw & Hb).
  unfold dominant_wavelength.
  rewrite (closest_batch_elementwise _ _ _ _ _ Hne Hf). cbn [bind].
  rewrite Htf, Hp. cbn [bind].
  rewrite (closest_batch_elementwise _ _ _ _ _ Hne Hr). cbn [bind].
  rewrite Htr. cbn [bind]. rewrite map_map, Hw, Hb, Ha. reflexivity.
Qed.

(** The three arrays of a call of [dominant_wavelength] on one stimulus
    have one row. *)
Lemma dominant_wavelength_single_shape p xy_n cmfs reverse wl xy_wl xy_cwl :
  dominant_wavelength [p] xy_n cmfs reverse = Ok (wl, xy_wl, xy_cwl) ->
  exists w a b, wl = [w] /\ xy_wl = [a] /\ xy_cwl = [b].
Proof.
  intros Hd.
  destruct (dominant_wavelength_Ok_inv _ _ _ _ _ _ _ Hd)
    as (i_wl & wl_f & purple & i_wl_r & xy_cwl_r & wl_r
        & Hc & Ht & _ & Hcr & Htr & Hwl & Hx).
  destruct (closest_lengths _ _ _ _ _ _ Hc) as [Li Lx].
  destruct (closest_lengths _ _ _ _ _ _ Hcr) as [Lir Lxr].
  apply take_length in Ht, Htr. cbn [length] in Li, Lx, Lir, Lxr.
  assert (L1 : length wl = 1)
    by (subst wl; apply where_length; rewrite ?length_map; cbn [length];
        congruence).
  assert (L2 : length xy_cwl = 1)
    by (subst xy_cwl; apply where_length; rewrite ?length_map;
        cbn [length]; congruence).
  destruct (length_one _ L1) as [w ->].
  destruct (length_one _ Lx) as [a ->].
  destruct (length_one _ L2) as [b ->].
  now exists w, a, b.
Qed.

Lemma excitation_purity_singles xy xy_n cmfs (es : list float) :
  Forall2 (fun p e => excitation_purity [p] xy_n cmfs = Ok [e]) xy es ->
  exists rs : list (float * point * point),
    Forall2 (fun p r =>
               dominant_wavelength [p] xy_n cmfs false
               = Ok ([fst (fst r)], [snd (fst r)], [snd r])) xy rs /\
    map (fun '(p, q) =>
           (euclidean_distance xy_n p / euclidean_distance xy_n q)%float)
        (combine xy (map (fun r => snd (fst r)) rs))
    = es.
Proof.
  induction 1 as [|p e xy es He _ (rs & F & E)].
  - exists []. split; [constructor | reflexivity].
  - unfold excitation_purity in He.
    destruct (dominant_wavelength [p] xy_n cmfs false)
      as [[[wl xy_wl] xy_cwl]|] eqn:Hd; [|discriminate].
    destruct (dominant_wavelength_single_shape _ _ _ _ _ _ _ Hd)
      as (w & a & b & -> & -> & ->).
    cbn [bind combine map] in He. injection He as <-.
    exists ((w, a, b) :: rs). split; [now constructor|].
    cbn [map combine fst snd]. now rewrite E.
Qed.

Lemma colorimetric_purity_singles xy xy_n cmfs (cs : list float) :
  Forall2 (fun p c => colorimetric_purity [p] xy_n cmfs = Ok [c]) xy cs ->
  exists rs : list (float * point * point),
    Forall2 (fun p r =>
               dominant_wavelength [p] xy_n cmfs false
               = Ok ([fst (fst r)], [snd (fst r)], [snd r])) xy rs /\
    map (fun '(pe, q, p) => (pe * snd q / snd p)%float)
        (combine
           (combine
              (map (fun '(p, q) =>
                      (euclidean_distance xy_n p
                       / euclidean_distance xy_n q)%float)
                   (combine xy (map (fun r => snd (fst r)) rs)))
              (map (fun r => snd (fst r)) rs))
           xy)
    = cs.
Proof.
  induction 1 as [|p c xy cs Hc _ (rs & F & E)].
  - exists []. split; [constructor | reflexivity].
  - unfold colorimetric_purity, excitation_purity in Hc.
    destruct (dominant_wavelength [p] xy_n cmfs false)
      as [[[wl xy_wl] xy_cwl]|] eqn:Hd; [|discriminate].
    destruct (dominant_wavelength_single_shape _ _ _ _ _ _ _ Hd)
      as (w & a & b & -> & -> & ->).
    cbn [bind combine map] in Hc. injection Hc as <-.
    exists ((w, a, b) :: rs). split; [now constructor|].
    cbn [map combine fst snd]. now rewrite E.
Qed.

(** X11: where the call on each stimulus of a batch alone returns, the call
    on the batch returns the same row for each of them, for
    [closest_spectral_locus_wavelength], [dominant_wavelength],
    [excitation_purity] and [colorimetric_purity]. *)
Theorem batch_agrees_with_single_calls xy xy_n :
  xy <> [] ->
  (forall xy_s reverse (rs : list (nat * point)),
      Forall2 (fun p r =>
                 closest_spectral_locus_wavelength [p] xy_n xy_s reverse
                 = Ok ([fst r], [snd r])) xy rs ->
      closest_spectral_locus_wavelength xy xy_n xy_s reverse
      = Ok (map fst rs, map snd rs)) /\
  (forall cmfs reverse (rs : list (float * point * point)),
      Forall2 (fun p r =>
                 dominant_wavelength [p] xy_n cmfs reverse
                 = Ok ([fst (fst r)], [snd (fst r)], [snd r])) xy rs ->
      dominant_wavelength xy xy_n cmfs reverse
      = Ok (map (fun r => fst (fst r)) rs,
            map (fun r => snd (fst r)) rs,
            map snd rs)) /\
  (forall cmfs (es : list float),
      Forall2 (fun p e => excitation_purity [p] xy_n cmfs = Ok [e]) xy es ->
      excitation_purity xy xy_n cmfs = Ok es) /\
  (forall cmfs (cs : list float),
      Forall2 (fun p c => colorimetric_purity [p] xy_n cmfs = Ok [c]) xy cs ->
      colorimetric_purity xy xy_n cmfs = Ok cs).
Proof.
  intros Hne. repeat split.
  - intros xy_s reverse rs. now apply closest_batch_elementwise.
  - intros cmfs reverse rs. now apply dominant_wavelength_of_singles.
  - intros cmfs es F.
    destruct (excitation_purity_singles _ _ _ _ F) as (rs & Fd & <-).
    unfold excitation_purity.
    now rewrite (dominant_wavelength_of_singles _ _ _ _ _ Hne Fd).
  - intros cmfs cs F.
    destruct (colorimetric_purity_singles _ _ _ _ F) as (rs & Fd & <-).
    unfold colorimetric_purity, excitation_purity.
    now rewrite (dominant_wavelength_of_singles _ _ _ _ _ Hne Fd).
Qed.

End BatchOutcome.

(** ** The first coordinate on the line of purples *)

Section PurpleFirst.

Context {collaborators : Collaborators}.

(** The rows of the calls on each stimulus alone, where all of them
    return. *)
Lemma closest_singles_rows xy xy_n xy_s reverse :
  Forall (fun p =>
            raised (closest_spectral_locus_wavelength [p] xy_n xy_s reverse)
            = None) xy ->
  exists rs : list (nat * point),
    Forall2 (fun p r =>
               closest_spectral_locus_wavelength [p] xy_n xy_s reverse
               = Ok ([fst r], [snd r])) xy rs.
Proof.
  induction 1 as [|p xy Hp _ [rs F]].
  - exists []. constructor.
  - destruct (closest_spectral_locus_wavelength [p] xy_n xy_s reverse)
      as [[i_wl xy_wl]|] eqn:Hc; [|discriminate].
    destruct (closest_lengths _ _ _ _ _ _ Hc) as [Li Lx].
    destruct (length_one _ Li) as [i ->].
    destruct (length_one _ Lx) as [q ->].
    exists ((i, q) :: rs). now constructor.
Qed.

(** The intersection that a call on one stimulus returns is the point where
    its ray meets the segment from the first to the last sample, when there
    is such a point. *)
Lemma closest_single_closing p xy_n s0 s reverse i q :
  closest_spectral_locus_wavelength [p] xy_n (s0 :: s) reverse
  = Ok ([i], [q]) ->
  np.isnan_any
    (Intersection.xy
       (intersect_line_segments
          (xy_n, extended xy_n reverse p) (s0, last (s0 :: s) s0))) = false ->
  q = Intersection.xy
        (intersect_line_segments
           (xy_n, extended xy_n reverse p) (s0, last (s0 :: s) s0)).
Proof.
  intros Hc Hv.
  destruct (closest_single _ _ _ _ _ _ _ Hc) as [Hx _].
  unfold crossings, edges in Hx. rewrite roll_app in Hx.
  set (f := fun s1 : segment =>
              Intersection.xy
                (intersect_line_segments
                   (xy_n, extended xy_n reverse p) s1)) in *.
  assert (Hin : In (f (s0, last (s0 :: s) s0)) [q]).
  { rewrite <- Hx. apply filter_In. split.
    - apply in_map. apply (In_combine_last (s0 :: s) s0 s0).
    - apply negb_true_iff. exact Hv. }
  destruct Hin as [Hq|[]]. now symmetry.
Qed.

Lemma Forall2_nth_error {A B : Type} (R : A -> B -> Prop) l l' k a :
  Forall2 R l l' -> nth_error l k = Some a ->
  exists b, nth_error l' k = Some b /\ R a b.
Proof.
  intros F. revert k. induction F as [|x y l l' Hxy _ IH]; intros k Hk.
  - destruct k; discriminate.
  - destruct k as [|k]; cbn [nth_error] in *.
    + injection Hk as <-. now exists y.
    + now apply IH.
Qed.

(** X13: where the search in the direction asked for returns on each
    stimulus of a batch alone, the first coordinate that
    [dominant_wavelength] returns for a stimulus whose ray meets the
    segment from the first to the last sample, at a point that is not NaN,
    is that point of the line of purples. *)
Theorem dominant_wavelength_purple_first
        xy xy_n cmfs reverse wl xy_wl xy_cwl :
  dominant_wavelength xy xy_n cmfs reverse = Ok (wl, xy_wl, xy_cwl) ->
  Forall (fun p =>
            raised (closest_spectral_locus_wavelength
                      [p] xy_n (map XYZ_to_xy (values cmfs)) reverse)
            = None) xy ->
  exists purple,
    purple_line (map XYZ_to_xy (values cmfs)) = Ok purple /\
    forall k p,
      nth_error xy k = Some p ->
      np.isnan_any
        (Intersection.xy
           (intersect_line_segments (xy_n, extended xy_n reverse p) purple))
      = false ->
      nth_error xy_wl k
      = Some (Intersection.xy
                (intersect_line_segments
                   (xy_n, extended xy_n reverse p) purple)).
Proof.
  intros Hd Hs.
  destruct (dominant_wavelength_Ok_inv _ _ _ _ _ _ _ Hd)
    as (i_wl & _ & purple & _ & _ & _ & Hc & _ & Hp & _).
  exists purple. split; [exact Hp|]. intros k p Hk Hv.
  destruct (closest_singles_rows _ _ _ _ Hs) as [rs F].
  assert (Hne : xy <> []) by (intros ->; destruct k; discriminate).
  rewrite (closest_batch_elementwise _ _ _ _ _ Hne F) in Hc.
  injection Hc as _ <-.
  destruct (Forall2_nth_error _ _ _ _ _ F Hk) as ([i q] & Hr & Hq).
  cbn [fst snd] in Hq.
  rewrite nth_error_map, Hr. cbn [option_map snd]. f_equal.
  destruct (map XYZ_to_xy (values cmfs)) as [|s0 s] eqn:Hxs; [discriminate|].
  injection Hp as <-.
  exact (closest_single_closing _ _ _ _ _ _ _ Hq Hv).
Qed.

End PurpleFirst.

(** ** The observer on a triangle, again *)

Section MoreExamples.

Import Triangle.

Local Open Scope float_scope.

Local Abbreviation G := Geometry.collaborators.

Lemma closest_green_purple :
  @closest_spectral_locus_wavelength G [green; purple] xy_n xy_s false
  = Ok ([1; 0]%nat, [(0.375, 0.125); (0, 0.125)]).
Proof. vm_compute. reflexivity. Qed.

Lemma dominant_green_purple :
  @dominant_wavelength G [green; purple] xy_n cmfs false
  = Ok ([550; -550], [(0.375, 0.125); (0, 0.125)],
        [(0.375, 0.125); (0.375, 0.125)]).
Proof. vm_compute. reflexivity. Qed.

Lemma complementary_green_purple :
  @complementary_wavelength G [green; purple] xy_n cmfs
  = Ok ([-550; 550], [(0, 0.125); (0.375, 0.125)],
        [(0.375, 0.125); (0.375, 0.125)]).
Proof. vm_compute. reflexivity. Qed.

Lemma closest_no_nan_witness :
  @closest_spectral_locus_wavelength G [green; purple] xy_n xy_s false
  = Ok ([1; 0]%nat, [(0.375, 0.125); (0, 0.125)]) /\
  Forall (fun p => np.isnan_any p = false) [(0.375, 0.125); (0, 0.125)].
Proof.
  split; [exact closest_green_purple|].
  exact (@closest_no_nan G _ _ _ _ _ _ closest_green_purple).
Defined.

Lemma closest_nearest_sample_witness :
  @closest_spectral_locus_wavelength G [green; purple] xy_n xy_s false
  = Ok ([1; 0]%nat, [(0.375, 0.125); (0, 0.125)]) /\
  nth_error [1; 0]%nat 0 = Some 1%nat /\
  nth_error [(0.375, 0.125); (0, 0.125)] 0 = Some (0.375, 0.125) /\
  Forall (fun s => is_nan (cdist (0.375, 0.125) s) = false) xy_s /\
  exists s_i,
    nth_error xy_s 1 = Some s_i /\
    Forall (fun s => (cdist (0.375, 0.125) s_i <=? cdist (0.375, 0.125) s)
                     = true) xy_s /\
    forall j s,
      (j < 1)%nat -> nth_error xy_s j = Some s ->
      (cdist (0.375, 0.125) s <=? cdist (0.375, 0.125) s_i) = false.
Proof.
  assert (F : Forall (fun s => is_nan (cdist (0.375, 0.125) s) = false) xy_s)
    by (repeat (constructor; [vm_compute; reflexivity|]); constructor).
  split; [exact closest_green_purple|].
  split; [reflexivity|]. split; [reflexivity|]. split; [exact F|].
  exact (@closest_nearest_sample G _ _ _ _ _ _ 0%nat 1%nat (0.375, 0.125)
           closest_green_purple eq_refl eq_refl F).
Defined.

Lemma closest_crossing_origin_witness :
  @closest_spectral_locus_wavelength G [green; purple] xy_n xy_s false
  = Ok ([1; 0]%nat, [(0.375, 0.125); (0, 0.125)]) /\
  In (0, 0.125) [(0.375, 0.125); (0, 0.125)] /\
  exists p s0 l_2,
    In p [green; purple] /\
    hd_error xy_s = Some s0 /\
    In l_2 (edges (xy_s ++ [s0])) /\
    (0, 0.125)
    = Intersection.xy
        (@intersect_line_segments G (xy_n, @extended G xy_n false p) l_2).
Proof.
  assert (H : In (0, 0.125) [(0.375, 0.125); (0, 0.125)])
    by (right; left; reflexivity).
  split; [exact closest_green_purple|]. split; [exact H|].
  exact (@closest_crossing_origin G _ _ _ _ _ _ _ closest_green_purple H).
Defined.

Lemma dominant_wavelength_exception_witness :
  length (wavelengths cmfs) = length (values cmfs) /\
  raised (@dominant_wavelength G [corner] xy_n cmfs true)
  = Some (ValueError_reshape 2 1) /\
  (raised (@complementary_wavelength G [green] xy_n cmfs) = None
   <-> raised (@dominant_wavelength G [green] xy_n cmfs false) = None).
Proof.
  split; [reflexivity|].
  destruct (@dominant_wavelength_exception G [corner] xy_n cmfs true eq_refl)
    as [H _].
  destruct (@dominant_wavelength_exception G [green] xy_n cmfs false eq_refl)
    as [_ H'].
  split; [|exact H'].
  rewrite H. vm_compute. reflexivity.
Defined.

Lemma dominant_wavelength_shape_witness :
  @dominant_wavelength G [green; purple] xy_n cmfs false
  = Ok ([550; -550], [(0.375, 0.125); (0, 0.125)],
        [(0.375, 0.125); (0.375, 0.125)]) /\
  length [550; -550] = length [green; purple] /\
  length [(0.375, 0.125); (0, 0.125)] = length [green; purple] /\
  length [(0.375, 0.125); (0.375, 0.125)] = length [green; purple].
Proof.
  split; [exact dominant_green_purple|].
  exact (@dominant_wavelength_shape G _ _ _ _ _ _ _ dominant_green_purple).
Defined.

Lemma dominant_wavelength_is_sample_witness :
  @dominant_wavelength G [green; purple] xy_n cmfs false
  = Ok ([550; -550], [(0.375, 0.125); (0, 0.125)],
        [(0.375, 0.125); (0.375, 0.125)]) /\
  Forall (fun w =>
            In w (wavelengths cmfs) \/
            exists w0, In w0 (wavelengths cmfs) /\ w = - w0) [550; -550].
Proof.
  split; [exact dominant_green_purple|].
  exact (@dominant_wavelength_is_sample G _ _ _ _ _ _ _ dominant_green_purple).
Defined.

Lemma dominant_wavelength_no_nan_witness :
  @dominant_wavelength G [green; purple] xy_n cmfs false
  = Ok ([550; -550], [(0.375, 0.125); (0, 0.125)],
        [(0.375, 0.125); (0.375, 0.125)]) /\
  Forall (fun p => np.isnan_any p = false) [(0.375, 0.125); (0, 0.125)] /\
  Forall (fun p => np.isnan_any p = false) [(0.375, 0.125); (0.375, 0.125)].
Proof.
  split; [exact dominant_green_purple|].
  exact (@dominant_wavelength_no_nan G _ _ _ _ _ _ _ dominant_green_purple).
Defined.

Lemma dominant_complementary_rows_witness :
  @dominant_wavelength G [green; purple] xy_n cmfs false
  = Ok ([550; -550], [(0.375, 0.125); (0, 0.125)],
        [(0.375, 0.125); (0.375, 0.125)]) /\
  @complementary_wavelength G [green; purple] xy_n cmfs
  = Ok ([-550; 550], [(0, 0.125); (0.375, 0.125)],
        [(0.375, 0.125); (0.375, 0.125)]) /\
  exists edge,
    purple_line (map (@XYZ_to_xy G) (values cmfs)) = Ok edge /\
    forall k p,
      nth_error [green; purple] k = Some p ->
      exists w_f w_r c_f c_r,
        In w_f (wavelengths cmfs) /\ In w_r (wavelengths cmfs) /\
        nth_error [(0.375, 0.125); (0, 0.125)] k = Some c_f /\
        nth_error [(0, 0.125); (0.375, 0.125)] k = Some c_r /\
        nth_error [550; -550] k
        = Some (if Intersection.intersect
                     (@intersect_line_segments
                        G (xy_n, @extended G xy_n false p) edge)
                then - w_r else w_f) /\
        nth_error [(0.375, 0.125); (0.375, 0.125)] k
        = Some (if Intersection.intersect
                     (@intersect_line_segments
                        G (xy_n, @extended G xy_n false p) edge)
                then c_r else c_f) /\
        nth_error [-550; 550] k
        = Some (if Intersection.intersect
                     (@intersect_line_segments
                        G (xy_n, @extended G xy_n true p) edge)
                then - w_f else w_r) /\
        nth_error [(0.375, 0.125); (0.375, 0.125)] k
        = Some (if Intersection.intersect
                     (@intersect_line_segments
                        G (xy_n, @extended G xy_n true p) edge)
                then c_f else c_r).
Proof.
  split; [exact dominant_green_purple|].
  split; [exact complementary_green_purple|].
  exact (@dominant_complementary_rows G _ _ _ _ _ _ _ _ _
           dominant_green_purple complementary_green_purple).
Defined.

Lemma batch_agrees_with_single_calls_witness :
  [green; purple] <> [] /\
  @closest_spectral_locus_wavelength G [green; purple] xy_n xy_s false
  = Ok (map fst [(1%nat, (0.375, 0.125)); (0%nat, (0, 0.125))],
        map snd [(1%nat, (0.375, 0.125)); (0%nat, (0, 0.125))]) /\
  @dominant_wavelength G [green; purple] xy_n cmfs false
  = Ok (map (fun r => fst (fst r))
            [(550, (0.375, 0.125), (0.375, 0.125));
             (-550, (0, 0.125), (0.375, 0.125))],
        map (fun r => snd (fst r))
            [(550, (0.375, 0.125), (0.375, 0.125));
             (-550, (0, 0.125), (0.375, 0.125))],
        map snd
            [(550, (0.375, 0.125), (0.375, 0.125));
             (-550, (0, 0.125), (0.375, 0.125))]) /\
  @excitation_purity G [green; purple] xy_n cmfs = Ok [0.5; 0.5] /\
  @colorimetric_purity G [green; purple] xy_n cmfs = Ok [0.5; 0.5].
Proof.
  assert (Hne : [green; purple] <> []) by discriminate.
  destruct (@batch_agrees_with_single_calls G [green; purple] xy_n Hne)
    as (Hc & Hd & He & Hcp).
  split; [exact Hne|]. split; [|split; [|split]].
  - apply Hc. repeat (constructor; [vm_compute; reflexivity|]). constructor.
  - apply Hd. repeat (constructor; [vm_compute; reflexivity|]). constructor.
  - apply He. repeat (constructor; [vm_compute; reflexivity|]). constructor.
  - apply Hcp. repeat (constructor; [vm_compute; reflexivity|]). constructor.
Defined.

Lemma closest_batch_misattributes_witness :
  @crossings G outside (@extended G outside false away)
             (edges (xy_s ++ [(0, 0)])) = [] /\
  @crossings G outside (@extended G outside false across)
             (edges (xy_s ++ [(0, 0)])) = [(0.375, 0.125); (0, 0.125)] /\
  @closest_spectral_locus_wavelength G [away; across] outside xy_s false
  = Ok ([nearest (0, 0) ([(0.5, 0); (0, 0.5)] ++ [(0, 0)]) (0.375, 0.125);
         nearest (0, 0) ([(0.5, 0); (0, 0.5)] ++ [(0, 0)]) (0, 0.125)],
        [(0.375, 0.125); (0, 0.125)]) /\
  @closest_spectral_locus_wavelength G [away] outside xy_s false
  = Raise (ValueError_no_intersection [away] outside) /\
  @closest_spectral_locus_wavelength G [across] outside xy_s false
  = Raise (ValueError_reshape 2 1).
Proof.
  assert (Ha : @crossings G outside (@extended G outside false away)
                          (edges (xy_s ++ [(0, 0)])) = [])
    by (vm_compute; reflexivity).
  assert (Hb : @crossings G outside (@extended G outside false across)
                          (edges (xy_s ++ [(0, 0)]))
               = [(0.375, 0.125); (0, 0.125)])
    by (vm_compute; reflexivity).
  split; [exact Ha|]. split; [exact Hb|].
  exact (@closest_batch_misattributes
           G away across outside (0, 0) [(0.5, 0); (0, 0.5)] false
           _ _ Ha Hb).
Defined.

Lemma dominant_wavelength_purple_first_witness :
  @dominant_wavelength G [green; purple] xy_n cmfs false
  = Ok ([550; -550], [(0.375, 0.125); (0, 0.125)],
        [(0.375, 0.125); (0.375, 0.125)]) /\
  Forall (fun p =>
            raised (@closest_spectral_locus_wavelength
                      G [p] xy_n (map (@XYZ_to_xy G) (values cmfs)) false)
            = None) [green; purple] /\
  nth_error [(0.375, 0.125); (0, 0.125)] 1
  = Some (Intersection.xy
            (@intersect_line_segments
               G (xy_n, @extended G xy_n false purple) ((0, 0), (0, 0.5)))).
Proof.
  assert (H : @dominant_wavelength G [green; purple] xy_n cmfs false
              = Ok ([550; -550], [(0.375, 0.125); (0, 0.125)],
                    [(0.375, 0.125); (0.375, 0.125)]))
    by (vm_compute; reflexivity).
  assert (F : Forall
                (fun p =>
                   raised (@closest_spectral_locus_wavelength
                             G [p] xy_n (map (@XYZ_to_xy G) (values cmfs))
                             false)
                   = None) [green; purple])
    by (repeat constructor).
  split; [exact H|]. split; [exact F|].
  destruct (@dominant_wavelength_purple_first G _ _ _ _ _ _ _ H F)
    as (edge & Hp & Hrow).
  assert (He : edge = ((0, 0), (0, 0.5)))
    by (vm_compute in Hp; now injection Hp).
  subst edge.
  apply (Hrow 1%nat purple eq_refl). vm_compute. reflexivity.
Defined.

End MoreExamples.
